(** * c2j: CSV rows to a key/value map

    A shallow embedding of [src/index.js] (the [CsvMapper.build] closure,
    [resolveStream], [list] and the command line that drives them) together
    with the properties of its aggregation core.

    Modelling conventions.
    - A JavaScript value is a [jsval]; an object is the list of its own
      properties in the order the language enumerates them, and reading a
      property falls back on the members of [Object.prototype].
    - A row is what the csv parser emits with [columns: true]: a plain
      object whose own property values are strings, given by its own
      properties in the order they are enumerated.
    - The result [map] is a [gmap string jsval] holding its own properties
      (the order in which they are enumerated is not recorded); it is a
      plain object too, so reading it also finds what it inherits.
    - Every file named is taken to be readable: a read stream that fails
      to open (its ['error'] has no listener) is outside the model.
    - A stream is described by the events the parser emits once the stream
      is piped into it, in order; nothing is emitted after ['finish'].
    - [build] returns how it completed together with the closure's state
      once all events have been handled; the state records the effects in
      order (streams created, streams piped, calls of [cb]). *)

From Stdlib Require Import String Ascii.
From stdpp Require Import ssreflect gmap strings list fin_maps sorting.

Set Warnings "-register-all,-rewrite-rw,-clear-no-such-hyp".

(** ** Values *)

Inductive jsval : Type :=
| JUndefined
| JString (s : string)
| JObject (props : list (string * jsval))
| JArray (elems : list jsval)
| JFunction (name : string)
| JObjectPrototype.

(** [!v] is [negb (truthy v)]. *)
Definition truthy (v : jsval) : bool :=
  match v with
  | JUndefined => false
  | JString s => negb (String.eqb s "")
  | JObject _ => true
  | JArray _ => true
  | JFunction _ => true
  | JObjectPrototype => true
  end.

(** The string coercion performed by ['' + v]. *)
Fixpoint toString (v : jsval) : string :=
  match v with
  | JUndefined => "undefined"
  | JString s => s
  | JObject _ => "[object Object]"
  | JArray elems =>
      String.concat ","
        (List.map (fun e => match e with
                            | JUndefined => ""
                            | _ => toString e
                            end) elems)
  | JFunction name => "function " +:+ name +:+ "() { [native code] }"
  | JObjectPrototype => "[object Object]"
  end.

(** *** Plain objects *)

(** The functions every plain object inherits under their own name. *)
Definition inheritedFunctions : list string :=
  ["hasOwnProperty"; "isPrototypeOf"; "propertyIsEnumerable";
   "toLocaleString"; "toString"; "valueOf";
   "__defineGetter__"; "__defineSetter__";
   "__lookupGetter__"; "__lookupSetter__"].

(** What a plain object without own property [name] yields for [o[name]]:
    the member of [Object.prototype] of that name, if there is one. *)
Definition ObjectPrototype (name : string) : option jsval :=
  if String.eqb name "__proto__" then Some JObjectPrototype
  else if String.eqb name "constructor" then Some (JFunction "Object")
  else if existsb (String.eqb name) inheritedFunctions
       then Some (JFunction name)
  else None.

Definition inherited (name : string) : bool :=
  match ObjectPrototype name with
  | Some _ => true
  | None => false
  end.

(** Own property lookup. *)
Fixpoint own (props : list (string * jsval)) (name : string) : option jsval :=
  match props with
  | [] => None
  | (k, x) :: rest => if String.eqb k name then Some x else own rest name
  end.

(** [o[name]] on a plain object: the accessor [__proto__], else the own
    property, else what is inherited, else [undefined]. *)
Definition get (props : list (string * jsval)) (name : string) : jsval :=
  if String.eqb name "__proto__" then JObjectPrototype
  else
    match own props name with
    | Some v => v
    | None => default JUndefined (ObjectPrototype name)
    end.

(** The array index a property name stands for: a canonical decimal
    numeral below 2^32 - 1. *)
Definition digit (c : ascii) : option N :=
  let n := N_of_ascii c in
  if ((48 <=? n) && (n <=? 57))%N then Some (n - 48)%N else None.

Fixpoint digits (s : string) (acc : N) : option N :=
  match s with
  | EmptyString => Some acc
  | String c rest =>
      match digit c with
      | Some d => digits rest (10 * acc + d)%N
      | None => None
      end
  end.

Definition arrayIndex (name : string) : option N :=
  match name with
  | EmptyString => None
  | String c rest =>
      if Ascii.eqb c "0" then
        if String.eqb rest "" then Some 0%N else None
      else
        match digits name 0 with
        | Some n => if (n <? 4294967295)%N then Some n else None
        | None => None
        end
  end.

(** Whether a new property [name] is enumerated before the property [k]:
    array indices come first, in ascending order; other names keep their
    order of creation. *)
Definition goesBefore (name k : string) : bool :=
  match arrayIndex name, arrayIndex k with
  | Some i, Some j => (i <? j)%N
  | Some _, None => true
  | None, _ => false
  end.

Fixpoint define (props : list (string * jsval)) (name : string) (v : jsval)
  : list (string * jsval) :=
  match props with
  | [] => [(name, v)]
  | (k, x) :: rest =>
      if String.eqb k name then (k, v) :: rest
      else if goesBefore name k then (name, v) :: (k, x) :: rest
      else (k, x) :: define rest name v
  end.

(** [o[name] = v] on a plain object.  An assignment to [__proto__] goes to
    the accessor and creates no property (it sets the prototype when [v]
    is an object; the code only ever assigns [Object.prototype] or a
    string or [undefined] this way to an object it reads afterwards). *)
Definition set (props : list (string * jsval)) (name : string) (v : jsval)
  : list (string * jsval) :=
  if String.eqb name "__proto__" then props else define props name v.

(** [map[key]] and [map[key] = v] on the result map, a plain object whose
    own properties are the entries of the [gmap].  An object assigned to
    [map['__proto__']] becomes the map's prototype; only [doNormal] can do
    that and it never reads the map, so the prototype is not recorded. *)
Definition mapGet (map : gmap string jsval) (key : string) : jsval :=
  if String.eqb key "__proto__" then JObjectPrototype
  else
    match map !! key with
    | Some v => v
    | None => default JUndefined (ObjectPrototype key)
    end.

Definition mapSet (map : gmap string jsval) (key : string) (v : jsval)
  : gmap string jsval :=
  if String.eqb key "__proto__" then map else <[key := v]> map.

(** ** Rows *)

Definition row : Type := list (string * string).

Definition row_object (r : row) : list (string * jsval) :=
  List.map (fun kv => (fst kv, JString (snd kv))) r.

(** [row[colName]] *)
Definition row_get (r : row) (colName : string) : jsval :=
  get (row_object r) colName.

(** [a[0]] used as a property name: a missing element is [undefined], whose
    property key is the string "undefined". *)
Definition propertyKey (name : option string) : string :=
  default "undefined" name.

(** ** Exceptions and completions *)

Inductive exn : Type :=
| Error (message : string)
| TypeError (message : string).

Inductive completion (A : Type) : Type :=
| Normal (a : A)
| Throw (e : exn).
Arguments Normal {A} a.
Arguments Throw {A} e.

(** ** Streams *)

(** The events of [parse({columns: true})] that [doIt] listens to. *)
Inductive parser_event : Type :=
| Data (r : row)
| ParseError (err : string)
| Finish.

(** What the parser emits for one piped stream. *)
Definition feed : Type := list parser_event.

Inductive input_item : Type :=
| Str (s : string)
| StreamObj (f : feed).

Inductive rstream : Type :=
| ProcessStdin
| Readable (text : string)
| ReadStream (path : string)
| Passed (f : feed).

Inductive event : Type :=
| EStdin
| EReadable (text : string)
| ECreateReadStream (path : string)
| EPipe (n : nat)
| EUncaught (e : exn)
| ECallback (err : option string) (result : option (gmap string jsval)).

Definition newline : string := String (ascii_of_nat 10) EmptyString.

(** [input.indexOf('\n') > -1] *)
Definition hasNewline (input : string) : bool :=
  match String.index 0 newline input with
  | Some _ => true
  | None => false
  end.

Definition resolveStream (input : input_item) : rstream * list event :=
  match input with
  | Str s =>
      if hasNewline s then (Readable s, [EReadable s])
      else (ReadStream s, [ECreateReadStream s])
  | StreamObj f => (Passed f, [])
  end.

(** The environment: what each kind of stream delivers once parsed. *)
Record world : Type := World {
  stdin_feed : feed;
  text_feed : string -> feed;
  file_feed : string -> feed
}.

Definition feed_of (w : world) (s : rstream) : feed :=
  match s with
  | ProcessStdin => stdin_feed w
  | Readable text => text_feed w text
  | ReadStream path => file_feed w path
  | Passed f => f
  end.

(** ** The closure of [build] *)

Module State.
Record t : Type := mk {
  map : gmap string jsval;
  currentStream : nat;
  events : list event
}.
End State.

Section Closure.
Variable keyDelimiter : string.
Variable duplicateKeys : bool.
Variables keyColNames valColNames : list string.

Definition getKey (r : row) : string :=
  fst (fold_left
         (fun (acc : string * string) colName =>
            let '(key, delim) := acc in
            (key +:+ (delim +:+ toString (row_get r colName)), keyDelimiter))
         keyColNames ("", "")).

Definition getValue (r : row) : jsval :=
  if duplicateKeys then row_get r (propertyKey (valColNames !! 0%nat))
  else if (length valColNames =? 0)%nat then JObject (row_object r)
  else if (length valColNames =? 1)%nat then
    row_get r (propertyKey (valColNames !! 0%nat))
  else
    JObject (fold_left (fun v colName => set v colName (row_get r colName))
                       valColNames []).

Definition doNormal (r : row) (map : gmap string jsval)
  : gmap string jsval :=
  let key := getKey r in
  let value := getValue r in
  mapSet map key value.

(** [o] aliases [map[key]]: the push is visible through the map. *)
Definition doDupKeys (r : row) (map : gmap string jsval)
  : completion (gmap string jsval) :=
  let key := getKey r in
  let value := getValue r in
  let o := mapGet map key in
  let '(o, map) :=
    if negb (truthy o) then (JArray [], mapSet map key (JArray []))
    else (o, map) in
  match o with
  | JArray elems => Normal (mapSet map key (JArray (elems ++ [value])))
  | _ => Throw (TypeError "o.push is not a function")
  end.

(** The ['data'] handler of [doIt]. *)
Definition onData (r : row) (map : gmap string jsval)
  : completion (gmap string jsval) :=
  if duplicateKeys then doDupKeys r map else Normal (doNormal r map).

(** The ['data'] handler run on a sequence of rows.  An exception escaping
    the handler stops the run; the map is as the failing call left it. *)
Fixpoint drain (rs : list row) (map : gmap string jsval)
  : gmap string jsval * option exn :=
  match rs with
  | [] => (map, None)
  | r :: rest =>
      match onData r map with
      | Normal map' => drain rest map'
      | Throw e => (map, Some e)
      end
  end.

(** The handlers registered on one piped stream, run on its events in
    order; [next] is the call [doIt(cb)] of the ['finish'] handler.  An
    exception escaping the ['data'] handler ends the run. *)
Fixpoint emit (next : State.t → State.t) (evs : feed) (st : State.t)
  : State.t :=
  match evs with
  | [] => st
  | Data r :: evs' =>
      match onData r (State.map st) with
      | Normal map =>
          emit next evs'
               (State.mk map (State.currentStream st) (State.events st))
      | Throw e =>
          State.mk (State.map st) (State.currentStream st)
                   (State.events st ++ [EUncaught e])
      end
  | ParseError err :: evs' =>
      emit next evs'
           (State.mk (State.map st) (State.currentStream st)
                     (State.events st ++ [ECallback (Some err) None]))
  | Finish :: _ =>
      next (State.mk (State.map st) (S (State.currentStream st))
                     (State.events st))
  end.

(** [doIt(cb)]; [pending] is [instream] from index [currentStream] on. *)
Fixpoint doIt (pending : list feed) (st : State.t) : State.t :=
  match pending with
  | [] =>
      State.mk (State.map st) (State.currentStream st)
               (State.events st ++ [ECallback None (Some (State.map st))])
  | f :: rest =>
      emit (doIt rest) f
           (State.mk (State.map st) (State.currentStream st)
                     (State.events st ++ [EPipe (State.currentStream st)]))
  end.
End Closure.

(** ** Options and [build] *)

Inductive names : Type :=
| Missing
| Name (colName : string)
| Names (colNames : list string).

Inductive inputs : Type :=
| NoInput
| Single (input : input_item)
| Several (input : list input_item).

Module Options.
Record t : Type := mk {
  input : inputs;
  keyColNames : names;
  valColNames : names;
  duplicateKeys : bool;
  keyDelimiter : option string
}.
End Options.

(** [!options.keyColNames], [!valColNames] *)
Definition names_falsy (n : names) : bool :=
  match n with
  | Missing => true
  | Name s => String.eqb s ""
  | Names _ => false
  end.

(** [!options.input] *)
Definition inputs_falsy (i : inputs) : bool :=
  match i with
  | NoInput => true
  | Single (Str s) => String.eqb s ""
  | Single (StreamObj _) => false
  | Several _ => false
  end.

(** [if (!Array.isArray(x)) x = [x]] *)
Definition names_array (n : names) : list string :=
  match n with
  | Missing => []
  | Name s => [s]
  | Names l => l
  end.

Definition inputs_array (i : inputs) : list input_item :=
  match i with
  | NoInput => []
  | Single x => [x]
  | Several l => l
  end.

(** [options.keyDelimiter || '_'] *)
Definition delimiter_of (d : option string) : string :=
  match d with
  | Some s => if String.eqb s "" then "_" else s
  | None => "_"
  end.

(** Lines 88-98: the streams of [instream], and what creating them did. *)
Definition resolveInputs (i : inputs) : list rstream * list event :=
  if inputs_falsy i then ([ProcessStdin], [EStdin])
  else
    fold_left
      (fun (acc : list rstream * list event) input =>
         let '(s, evs) := resolveStream input in
         (fst acc ++ [s], snd acc ++ evs))
      (inputs_array i) ([], []).

Definition build (w : world) (options : Options.t)
  : completion unit * State.t :=
  let map : gmap string jsval := ∅ in
  let keyDelimiter := delimiter_of (Options.keyDelimiter options) in
  let duplicateKeys := Options.duplicateKeys options in
  let '(instream, created) := resolveInputs (Options.input options) in
  if names_falsy (Options.keyColNames options) then
    (Throw (Error "options.keyColNames required. [object Object]"),
     State.mk map 0 created)
  else
    let keyColNames := names_array (Options.keyColNames options) in
    let valColNames :=
      if names_falsy (Options.valColNames options) then []
      else names_array (Options.valColNames options) in
    (Normal tt,
     doIt keyDelimiter duplicateKeys keyColNames valColNames
          (List.map (feed_of w) instream) (State.mk map 0 created)).

(** ** The command line (lines 196-254) *)

(** [s.split(sep)] for a separator of one character. *)
Fixpoint split (sep : ascii) (s : string) : list string :=
  match s with
  | EmptyString => [""]
  | String c rest =>
      if Ascii.eqb c sep then "" :: split sep rest
      else
        match split sep rest with
        | [] => [String c ""]
        | part :: parts => String c part :: parts
        end
  end.

(** [list(val)], the coercion given to the options -k, -v and -i. *)
Definition list_of (val : string) : list string :=
  split "," val.

(** [s.indexOf(c) > -1] for a character [c]. *)
Fixpoint hasChar (c : ascii) (s : string) : bool :=
  match s with
  | EmptyString => false
  | String c' rest => Ascii.eqb c' c || hasChar c rest
  end.

(** The option values as given on the command line; an option that takes
    a value is either absent or given with its value. *)
Module Cmd.
Record t : Type := mk {
  keyColNames : option string;
  valColNames : option string;
  input : option string;
  output : option string;
  duplicateKeys : bool;
  keyDelimiter : option string
}.
End Cmd.

(** [cmd.keyColNames], [cmd.valColNames]: the value passed through [list]. *)
Definition cli_names (v : option string) : names :=
  match v with
  | None => Missing
  | Some val => Names (list_of val)
  end.

(** [cmd.input] *)
Definition cli_inputs (v : option string) : inputs :=
  match v with
  | None => NoInput
  | Some val => Several (Str <$> list_of val)
  end.

(** Lines 232-237. *)
Definition cli_options (c : Cmd.t) : Options.t :=
  Options.mk (cli_inputs (Cmd.input c))
             (cli_names (Cmd.keyColNames c))
             (cli_names (Cmd.valColNames c))
             (Cmd.duplicateKeys c)
             (Cmd.keyDelimiter c).

Inductive sink : Type :=
| Stdout
| FileSink (path : string).

Inductive cli_event : Type :=
| CCreateWriteStream (path : string)
| CBuild (e : event)
| CWrite (out : sink) (text : string)
| CUncaught (e : exn)
| CRethrow (err : string).

(** Lines 242-246: [out] and what choosing it did. *)
Definition chooseOut (output : option string) : sink * list cli_event :=
  match output with
  | Some path =>
      if String.eqb path "" then (Stdout, [])
      else (FileSink path, [CCreateWriteStream path])
  | None => (Stdout, [])
  end.

Section Main.
(** [JSON.stringify(map, null, 3)] *)
Variable stringify : gmap string jsval → string.

(** The effects of a build as the command line sees them: the callback of
    lines 248-254 runs at each call of [cb]; an error it rethrows, like an
    exception escaping a handler, is caught by nothing and ends the
    process. *)
Fixpoint deliver (out : sink) (evs : list event) : list cli_event :=
  match evs with
  | [] => []
  | ECallback (Some err) _ :: _ => [CRethrow err]
  | ECallback None (Some map) :: rest =>
      CWrite out (stringify map) :: deliver out rest
  | ECallback None None :: _ =>
      [CUncaught (TypeError "Invalid non-string/buffer chunk")]
  | EUncaught e :: _ => [CUncaught e]
  | e :: rest => CBuild e :: deliver out rest
  end.

(** Lines 232-254, reached when the command line has arguments (with none,
    line 221 prints the help and exits); [inputFile] is the variable
    [input] of lines 202 and 215. *)
Definition main (w : world) (inputFile : option string) (c : Cmd.t)
  : list cli_event :=
  let input := inputFile in
  let options := cli_options c in
  let '(out, opened) := chooseOut (Cmd.output c) in
  match build w options with
  | (Normal _, st) => opened ++ deliver out (State.events st)
  | (Throw e, st) => opened ++ deliver out (State.events st) ++ [CUncaught e]
  end.
End Main.

(** ** Vocabulary of the statements *)

(** The distinct names of a column list, each at its first position. *)
Fixpoint listed (cols : list string) : list string :=
  match cols with
  | [] => []
  | c :: rest => c :: filter (λ x, x ≠ c) (listed rest)
  end.

(** The rows of [rs] whose composite key is [k], in order. *)
Definition keyed (keyDelimiter : string) (keyColNames : list string)
    (k : string) (rs : list row) : list row :=
  filter (λ r, getKey keyDelimiter keyColNames r = k) rs.

(** The sequence stored at [k]; empty when [k] holds no array. *)
Definition sequence_at (map : gmap string jsval) (k : string) : list jsval :=
  match map !! k with
  | Some (JArray elems) => elems
  | _ => []
  end.

Definition isNonEmptyArray (v : jsval) : bool :=
  match v with
  | JArray (_ :: _) => true
  | _ => false
  end.

(** The property names of an object after [o[name] = v]. *)
Fixpoint place (name : string) (names : list string) : list string :=
  match names with
  | [] => [name]
  | k :: rest =>
      if String.eqb k name then k :: rest
      else if goesBefore name k then name :: k :: rest
      else k :: place name rest
  end.

(** The order of enumeration: an array index never follows a greater one
    or a name that is none. *)
Definition indexOrder (a b : string) : Prop :=
  match arrayIndex a, arrayIndex b with
  | Some i, Some j => (i ≤ j)%N
  | None, Some _ => False
  | _, None => True
  end.

(** A key at which the ['data'] handler dies: under [duplicateKeys], one
    that names a member of [Object.prototype]. *)
Definition fatal (duplicateKeys : bool) (key : string) : bool :=
  duplicateKeys && inherited key.


(** The column holds a string in which the character [d] does not occur. *)
Definition cellFree (d : ascii) (r : row) (colName : string) : bool :=
  match row_get r colName with
  | JString s => negb (hasChar d s)
  | _ => false
  end.

Definition isCallback (e : event) : bool :=
  match e with
  | ECallback _ _ => true
  | _ => false
  end.

(** Events of stream creation (lines 88-98), as opposed to piping a stream
    into the parser, running a handler or calling back. *)
Definition isCreation (e : event) : bool :=
  match e with
  | EStdin | EReadable _ | ECreateReadStream _ => true
  | EPipe _ | EUncaught _ | ECallback _ _ => false
  end.

(** The closure variables as [build] sets them from its options, and the
    closure's functions at those values. *)
Definition valColNames_of (options : Options.t) : list string :=
  if names_falsy (Options.valColNames options) then []
  else names_array (Options.valColNames options).

Definition getKey_in (options : Options.t) : row → string :=
  getKey (delimiter_of (Options.keyDelimiter options))
         (names_array (Options.keyColNames options)).

Definition getValue_in (options : Options.t) : row → jsval :=
  getValue (Options.duplicateKeys options) (valColNames_of options).

Definition drain_in (options : Options.t)
  : list row → gmap string jsval → gmap string jsval * option exn :=
  drain (delimiter_of (Options.keyDelimiter options))
        (Options.duplicateKeys options)
        (names_array (Options.keyColNames options))
        (valColNames_of options).

Definition doIt_in (options : Options.t) : list feed → State.t → State.t :=
  doIt (delimiter_of (Options.keyDelimiter options))
       (Options.duplicateKeys options)
       (names_array (Options.keyColNames options))
       (valColNames_of options).

(** The feeds [build] hands to [doIt], in [instream] order, and the events
    of creating those streams. *)
Definition feeds (w : world) (options : Options.t) : list feed :=
  feed_of w <$> (resolveInputs (Options.input options)).1.

Definition created (options : Options.t) : list event :=
  (resolveInputs (Options.input options)).2.

(** A stream that delivers the rows [rs] and finishes, and one whose
    parsing fails after the rows [rs]. *)
Definition finishing (rs : list row) : feed :=
  (Data <$> rs) ++ [Finish].

Definition failing (rs : list row) (err : string) : feed :=
  (Data <$> rs) ++ [ParseError err].

(** [EPipe from], ..., [EPipe (from + n - 1)] *)
Definition pipes (from n : nat) : list event :=
  EPipe <$> seq from n.
Arguments pipes : simpl never.

(** The last element of an array. *)
Definition lastElem (v : jsval) : option jsval :=
  match v with
  | JArray elems => last elems
  | _ => None
  end.

Definition isPipe (e : event) : bool :=
  match e with
  | EPipe _ => true
  | _ => false
  end.

Definition isUncaught (e : event) : bool :=
  match e with
  | EUncaught _ => true
  | _ => false
  end.

(** A stream whose ['error'] event, if any, is the last thing it emits. *)
Fixpoint errorLast (f : feed) : bool :=
  match f with
  | [] => true
  | Data _ :: f' => errorLast f'
  | ParseError _ :: f' => match f' with [] => true | _ :: _ => false end
  | Finish :: _ => true
  end.


(** Events at which the callback of the command line is not involved and
    nothing is thrown. *)
Definition isPlain (e : event) : bool :=
  negb (isCallback e) && negb (isUncaught e).

(** Events at which the process of the command line dies. *)
Definition isStopper (e : event) : bool :=
  match e with
  | ECallback (Some _) _ | ECallback None None | EUncaught _ => true
  | _ => false
  end.

(** What the command line does besides writing its result or dying. *)
Definition isQuiet (e : cli_event) : bool :=
  match e with
  | CCreateWriteStream _ | CBuild _ => true
  | CWrite _ _ | CUncaught _ | CRethrow _ => false
  end.

(** ** Sample data (from the comments of [src/index.js]) *)

Definition bill_smith : row :=
  [("First", "Bill"); ("Last", "Smith"); ("SSN", "111-22-3333")].

Definition bill : row :=
  [("Name", "Bill"); ("SSN", "111-22-3333");
   ("Birthplace", "Rochester NY"); ("Birthdate", "3/11/1934")].

Definition sports : list row :=
  [[("Name", "Joe"); ("Sport", "Soccer")];
   [("Name", "Sally"); ("Sport", "Rugby")];
   [("Name", "Joe"); ("Sport", "Boxing")];
   [("Name", "Sally"); ("Sport", "Sailing")]].

Definition clubs : list row :=
  [[("Club", "Harriers"); ("Name", "Joe"); ("Sport", "Running")];
   [("Club", "Rowers"); ("Name", "Ann"); ("Sport", "Rowing")]].

(** Three files: two that parse, and one the parser rejects after a row. *)
Definition sample_world : world :=
  World (finishing [])
        (λ _, finishing [])
        (λ path,
           if String.eqb path "sports.csv" then finishing sports
           else if String.eqb path "clubs.csv" then finishing clubs
           else if String.eqb path "broken.csv" then
             failing [[("Name", "Zed"); ("Sport", "Chess")]]
                     "Invalid closing quote"
           else finishing []).

Definition merge_options (duplicateKeys : bool) : Options.t :=
  Options.mk (Several [Str "sports.csv"; Str "clubs.csv"])
             (Name "Name") (Name "Sport") duplicateKeys None.

Definition broken_options : Options.t :=
  Options.mk (Several [Str "sports.csv"; Str "broken.csv"; Str "clubs.csv"])
             (Name "Name") (Name "Sport") true None.

Definition keyless_options : Options.t :=
  Options.mk (Single (Str "sports.csv")) Missing (Name "Sport") false None.


Definition sample_cmd (keyColNames : option string) : Cmd.t :=
  Cmd.mk keyColNames (Some "Sport") (Some "sports.csv,clubs.csv")
         (Some "out.json") false None.


(** Rows with integer-like columns, and rows whose key names a member of
    [Object.prototype]. *)
Definition years : row :=
  [("2019", "Soccer"); ("2020", "Boxing"); ("Name", "Joe")].

Definition heirs : list row :=
  [[("Name", "Joe"); ("Sport", "Soccer")];
   [("Name", "constructor"); ("Sport", "Rugby")];
   [("Name", "Joe"); ("Sport", "Boxing")]].

Definition protos : list row :=
  [[("Name", "__proto__"); ("Sport", "Rugby")];
   [("Name", "__proto__"); ("Sport", "Chess")]].

Definition heirs_options : Options.t :=
  Options.mk (Several [StreamObj (finishing heirs); Str "clubs.csv"])
             (Name "Name") (Name "Sport") true None.

Definition protos_options : Options.t :=
  Options.mk (Several [Str "clubs.csv"; StreamObj (finishing protos)])
             (Name "Name") (Name "Sport") false None.


(** A stand-in for [JSON.stringify]: the number of keys. *)
Definition sample_stringify (map : gmap string jsval) : string :=
  String.concat "" (replicate (size map) "*").

(** * Properties *)

(** ** Strings *)

Lemma append_assoc (a b c : string) : (a +:+ b) +:+ c = a +:+ (b +:+ c).
Proof.
  elim: a => [//|ch a IH].
  change (String ch ((a +:+ b) +:+ c) = String ch (a +:+ (b +:+ c))).
  by rewrite IH.
Qed.

Lemma concat_cons_cons (sep x y : string) (l : list string) :
  String.concat sep (x :: y :: l) = x +:+ sep +:+ String.concat sep (y :: l).
Proof. reflexivity. Qed.

Lemma append_empty_r (a : string) : a +:+ "" = a.
Proof.
  elim: a => [//|ch a IH].
  change (String ch (a +:+ "") = String ch a). by rewrite IH.
Qed.

Lemma concat_empty_cons (a : string) (l : list string) :
  String.concat "" (a :: l) = a +:+ String.concat "" l.
Proof. case: l => [|b l] //=. by rewrite append_empty_r. Qed.

(** Joining with a separator puts it in front of every string but the
    first. *)
Lemma concat_prefixed (sep x : string) (l : list string) :
  String.concat sep (x :: l) =
  x +:+ String.concat "" ((λ y, sep +:+ y) <$> l).
Proof.
  elim: l x => [|y l IH] x; first by rewrite /= append_empty_r.
  by rewrite concat_cons_cons IH fmap_cons concat_empty_cons append_assoc.
Qed.

(** ** The key builder *)

Section KeyBuilder.
Variable keyDelimiter : string.
Variable r : row.

Let cellText (colName : string) : string := toString (row_get r colName).

Let step (acc : string * string) (colName : string) : string * string :=
  let '(key, delim) := acc in
  (key +:+ (delim +:+ toString (row_get r colName)), keyDelimiter).

Lemma getKey_fold_nonempty colName cols key :
  fst (fold_left step (colName :: cols) (key, keyDelimiter)) =
  key +:+ keyDelimiter
      +:+ String.concat keyDelimiter (cellText <$> colName :: cols).
Proof.
  elim: cols colName key => [|c' cols IH] colName key; first done.
  change (fold_left step (colName :: c' :: cols) (key, keyDelimiter))
    with (fold_left step (c' :: cols)
            (key +:+ (keyDelimiter +:+ cellText colName), keyDelimiter)).
  rewrite IH. rewrite fmap_cons concat_cons_cons.
  by rewrite !append_assoc.
Qed.

Lemma getKey_concat cols :
  getKey keyDelimiter cols r =
  String.concat keyDelimiter (cellText <$> cols).
Proof.
  rewrite /getKey -/step.
  case: cols => [//|c [//|c' cols]].
  change (fold_left step (c :: c' :: cols) ("", ""))
    with (fold_left step (c' :: cols) (cellText c, keyDelimiter)).
  by rewrite getKey_fold_nonempty.
Qed.
End KeyBuilder.

(** ** The value projector *)

Lemma filter_all {A} (P : A → Prop) `{!∀ x, Decision (P x)} (l : list A) :
  Forall P l → filter P l = l.
Proof.
  elim: l => [//|a l IH] /Forall_cons [Ha Hl].
  by rewrite filter_cons_True // IH.
Qed.

Lemma elem_of_listed c cols : c ∈ listed cols ↔ c ∈ cols.
Proof.
  elim: cols => [//|a cols IH] /=.
  rewrite !elem_of_cons list_elem_of_filter IH.
  destruct (decide (c = a)); naive_solver.
Qed.

Lemma NoDup_listed cols : NoDup (listed cols).
Proof.
  elim: cols => [|a cols IH] /=; first by constructor.
  constructor; last by apply NoDup_filter.
  rewrite list_elem_of_filter. naive_solver.
Qed.

Lemma listed_NoDup cols : NoDup cols → listed cols = cols.
Proof.
  elim: cols => [//|a cols IH] /NoDup_cons [Ha Hnd] /=.
  rewrite IH //. f_equal.
  apply filter_all, Forall_forall => x Hx ?. by subst.
Qed.

Lemma listed_snoc cols c :
  listed (cols ++ [c]) =
  if decide (c ∈ cols) then listed cols else listed cols ++ [c].
Proof.
  elim: cols => [//|a cols IH] /=.
  rewrite IH. destruct (decide (c ∈ cols)) as [Hin|Hout].
  - rewrite decide_True //. set_solver.
  - rewrite filter_app. destruct (decide (c = a)) as [->|Hne].
    + rewrite decide_True; last set_solver.
      rewrite filter_cons_False; last naive_solver.
      by rewrite filter_nil app_nil_r.
    + rewrite decide_False; last set_solver.
      by rewrite filter_cons_True.
Qed.

Lemma inherited_proto : inherited "__proto__" = true.
Proof. reflexivity. Qed.

Lemma not_inherited_proto name :
  inherited name = false → String.eqb name "__proto__" = false.
Proof.
  case E: (String.eqb name "__proto__") => //.
  move/String.eqb_eq: E => ->. by rewrite inherited_proto.
Qed.

Lemma not_inherited_None name :
  inherited name = false → ObjectPrototype name = None.
Proof. rewrite /inherited. by case: (ObjectPrototype name). Qed.

(** A column the row lacks reads as what the row inherits. *)
Lemma row_get_absent r colName :
  own (row_object r) colName = None →
  row_get r colName =
  if String.eqb colName "__proto__" then JObjectPrototype
  else default JUndefined (ObjectPrototype colName).
Proof. by rewrite /row_get /get => ->. Qed.

Lemma row_get_absent_ordinary r colName :
  own (row_object r) colName = None → inherited colName = false →
  row_get r colName = JUndefined.
Proof.
  move=> Hown Hc. rewrite row_get_absent //.
  by rewrite not_inherited_proto // not_inherited_None.
Qed.

(** *** The order of properties *)

Lemma goesBefore_order c k : goesBefore c k = true → indexOrder c k.
Proof.
  rewrite /goesBefore /indexOrder.
  case: (arrayIndex c) => [i|] //. case: (arrayIndex k) => [j|] //.
  move/N.ltb_lt. lia.
Qed.

Lemma goesBefore_order_trans c k x :
  goesBefore c k = true → indexOrder k x → indexOrder c x.
Proof.
  rewrite /goesBefore /indexOrder.
  case: (arrayIndex c) => [i|] //. case: (arrayIndex k) => [j|].
  - move/N.ltb_lt => Hij. case: (arrayIndex x) => [j'|] //. lia.
  - move=> _. by case: (arrayIndex x).
Qed.

Lemma goesBefore_order_ne c k x :
  goesBefore c k = true → indexOrder k x → x ≠ c.
Proof.
  rewrite /goesBefore /indexOrder => Hc Hx Heq. subst x. move: Hc Hx.
  case: (arrayIndex c) => [i|] //. case: (arrayIndex k) => [j|] //.
  move/N.ltb_lt. lia.
Qed.

Lemma not_goesBefore_order c k : goesBefore c k = false → indexOrder k c.
Proof.
  rewrite /goesBefore /indexOrder.
  case: (arrayIndex c) => [i|]; last by case: (arrayIndex k).
  case: (arrayIndex k) => [j|] //. move/N.ltb_ge. lia.
Qed.

Lemma elem_of_place c names x : x ∈ place c names ↔ x = c ∨ x ∈ names.
Proof.
  elim: names => [|k rest IH] /=; first set_solver.
  case E: (String.eqb k c).
  - move/String.eqb_eq: E => ->. set_solver.
  - case: (goesBefore c k); first by rewrite elem_of_cons.
    rewrite !elem_of_cons IH. naive_solver.
Qed.

Lemma place_sorted c names :
  StronglySorted indexOrder names →
  StronglySorted indexOrder (place c names).
Proof.
  elim: names => [_|k rest IH] /=; first by repeat constructor.
  move=> Hs. have [Hrest Hk] := StronglySorted_inv Hs.
  case E: (String.eqb k c); first done.
  case Hb: (goesBefore c k).
  - constructor; first done.
    constructor; first exact: goesBefore_order.
    apply: Forall_impl Hk _ => x. exact: goesBefore_order_trans.
  - constructor; first exact: IH.
    apply Forall_forall => x /elem_of_place [->|Hx].
    + exact: not_goesBefore_order.
    + by move/Forall_forall: Hk => /(_ x Hx).
Qed.

Lemma place_NoDup c names :
  StronglySorted indexOrder names → NoDup names → NoDup (place c names).
Proof.
  elim: names => [_ _|k rest IH] /=.
  - apply NoDup_singleton.
  - move=> Hs /NoDup_cons [Hnk Hnd].
    have [Hrest Hk] := StronglySorted_inv Hs.
    case E: (String.eqb k c); first by constructor.
    move/String.eqb_neq: E => E.
    case Hb: (goesBefore c k).
    + constructor; last by constructor.
      move=> /elem_of_cons [?|Hc]; first by subst.
      move/Forall_forall: Hk => /(_ c Hc) Hkc.
      exact: (goesBefore_order_ne _ _ _ Hb Hkc).
    + constructor; last exact: IH.
      move=> /elem_of_place [?|?]; by [subst|].
Qed.

Lemma place_names_only c names :
  filter (λ x, arrayIndex x = None) (place c names) =
  if decide (c ∈ names) then filter (λ x, arrayIndex x = None) names
  else filter (λ x, arrayIndex x = None) names
         ++ (if decide (arrayIndex c = None) then [c] else []).
Proof.
  elim: names => [|k rest IH] /=.
  - by rewrite filter_cons filter_nil.
  - case E: (String.eqb k c).
    + move/String.eqb_eq: E => ->. rewrite decide_True //. set_solver.
    + move/String.eqb_neq: E => E. case Hb: (goesBefore c k).
      * have Hc : arrayIndex c ≠ None.
        { move: Hb. rewrite /goesBefore. by case: (arrayIndex c). }
        rewrite (filter_cons_False _ c) //.
        rewrite (decide_False (P := arrayIndex c = None)) // app_nil_r.
        by case: (decide _).
      * rewrite filter_cons IH (filter_cons _ k).
        destruct (decide (c ∈ rest)) as [Hin|Hout].
        -- rewrite (decide_True (P := c ∈ k :: rest)); last set_solver.
           done.
        -- rewrite (decide_False (P := c ∈ k :: rest)); last set_solver.
           by case: (decide (arrayIndex k = None)).
Qed.

(** The names of an object built by assigning the columns in turn. *)
Lemma placed_snoc cols c :
  fold_left (λ names x, place x names) (cols ++ [c]) [] =
  place c (fold_left (λ names x, place x names) cols []).
Proof. by rewrite fold_left_app. Qed.

Lemma elem_of_placed cols x :
  x ∈ fold_left (λ names c, place c names) cols [] ↔ x ∈ cols.
Proof.
  elim/rev_ind: cols => [//|c cols IH].
  rewrite placed_snoc elem_of_place IH. set_solver.
Qed.

Lemma placed_sorted cols :
  StronglySorted indexOrder (fold_left (λ names c, place c names) cols []) ∧
  NoDup (fold_left (λ names c, place c names) cols []).
Proof.
  elim/rev_ind: cols => [|c cols [Hs Hn]].
  - split; by constructor.
  - rewrite placed_snoc. split; [exact: place_sorted | exact: place_NoDup].
Qed.

Lemma placed_names_only cols :
  filter (λ x, arrayIndex x = None)
         (fold_left (λ names c, place c names) cols []) =
  filter (λ x, arrayIndex x = None) (listed cols).
Proof.
  elim/rev_ind: cols => [//|c cols IH].
  rewrite placed_snoc place_names_only listed_snoc IH.
  destruct (decide (c ∈ cols)) as [Hin|Hout].
  - rewrite decide_True //. by apply elem_of_placed.
  - rewrite decide_False; last by rewrite elem_of_placed.
    by rewrite filter_app filter_cons filter_nil.
Qed.

Lemma placed_listed cols :
  Forall (λ c, arrayIndex c = None) cols →
  fold_left (λ names c, place c names) cols [] = listed cols.
Proof.
  move=> Hcols.
  rewrite -(filter_all (λ c, arrayIndex c = None) (fold_left _ cols [])).
  - rewrite placed_names_only filter_all //.
    apply Forall_forall => c /elem_of_listed Hc.
    by move/Forall_forall: Hcols => /(_ c Hc).
  - apply Forall_forall => c /elem_of_placed Hc.
    by move/Forall_forall: Hcols => /(_ c Hc).
Qed.

Section ValueProjector.
Variable r : row.

Let entry (colName : string) : string * jsval := (colName, row_get r colName).

Lemma define_entries names c :
  define (entry <$> names) c (row_get r c) = entry <$> place c names.
Proof.
  elim: names => [//|k rest IH]. rewrite fmap_cons /=.
  case E: (String.eqb k c).
  - by move/String.eqb_eq: E => ->.
  - case: (goesBefore c k); first done. by rewrite IH.
Qed.

Lemma submapping_placed cols :
  "__proto__" ∉ cols →
  fold_left (λ v colName, set v colName (row_get r colName)) cols [] =
  entry <$> fold_left (λ names c, place c names) cols [].
Proof.
  elim/rev_ind: cols => [//|c cols IH] /not_elem_of_app [Hcols Hc].
  rewrite !fold_left_app /= IH // /set.
  have -> : String.eqb c "__proto__" = false.
  { apply String.eqb_neq => Heq. apply Hc. rewrite Heq. by left. }
  exact: define_entries.
Qed.

Lemma own_entries cols c :
  own (entry <$> cols) c =
  if decide (c ∈ cols) then Some (row_get r c) else None.
Proof.
  elim: cols => [//|a cols IH]. rewrite fmap_cons /=.
  case E: (String.eqb a c).
  - move/String.eqb_eq: E => ->. rewrite decide_True //. set_solver.
  - move/String.eqb_neq: E => E. rewrite IH.
    case_decide; [rewrite decide_True | rewrite decide_False]; set_solver.
Qed.
End ValueProjector.

(** ** The aggregator *)

Lemma sequence_at_insert (map : gmap string jsval) k k' elems :
  sequence_at (<[k := JArray elems]> map) k' =
  if decide (k = k') then elems else sequence_at map k'.
Proof.
  rewrite /sequence_at. case_decide as Hk.
  - by rewrite Hk lookup_insert_eq.
  - by rewrite lookup_insert_ne.
Qed.

Lemma lookup_mapSet (map : gmap string jsval) key v k :
  mapSet map key v !! k =
  if String.eqb key "__proto__" then map !! k
  else if decide (key = k) then Some v else map !! k.
Proof.
  rewrite /mapSet. case: (String.eqb key "__proto__"); first done.
  case_decide as Hk.
  - by rewrite Hk lookup_insert_eq.
  - by rewrite lookup_insert_ne.
Qed.

(** What a plain object inherits is truthy and has no [push]. *)
Lemma ObjectPrototype_member name x :
  ObjectPrototype name = Some x →
  truthy x = true ∧ ∀ elems, x ≠ JArray elems.
Proof.
  rewrite /ObjectPrototype.
  case: (String.eqb name "__proto__"); first by move=> [<-].
  case: (String.eqb name "constructor"); first by move=> [<-].
  by case: (existsb _ _) => // -[<-].
Qed.

Section Aggregator.
Variable keyDelimiter : string.
Variables keyColNames valColNames : list string.

Let key := getKey keyDelimiter keyColNames.
Let value (duplicateKeys : bool) := getValue duplicateKeys valColNames.
Let run (duplicateKeys : bool) :=
  drain keyDelimiter duplicateKeys keyColNames valColNames.

(** *** Overwrite policy *)

Lemma drain_normal_lookup rs (map : gmap string jsval) k :
  ∃ map', run false rs map = (map', None) ∧
    map' !! k =
    match (if String.eqb k "__proto__" then None
           else last (keyed keyDelimiter keyColNames k rs)) with
    | Some r => Some (value false r)
    | None => map !! k
    end.
Proof.
  elim: rs map => [|r rs IH] map.
  - exists map. split; first done. by case: (String.eqb k "__proto__").
  - case: (IH (doNormal keyDelimiter false keyColNames valColNames r map))
      => map' [Hrun Hk].
    exists map'. split; first done.
    rewrite Hk /doNormal lookup_mapSet -/key -/(value false).
    case Ek: (String.eqb k "__proto__").
    + move/String.eqb_eq: Ek => Ek.
      case Er: (String.eqb (key r) "__proto__"); first done.
      move/String.eqb_neq: Er => Er. rewrite decide_False //. by rewrite Ek.
    + move/String.eqb_neq: Ek => Ek.
      rewrite /keyed filter_cons -/key. case_decide as Hr.
      * rewrite last_cons. case: (last _) => [//|].
        have -> : String.eqb (key r) "__proto__" = false
          by apply String.eqb_neq; rewrite Hr.
        done.
      * case: (last _) => [//|].
        by case: (String.eqb (key r) "__proto__").
Qed.

(** *** Accumulate policy *)

Lemma doDupKeys_arrays r (map : gmap string jsval) :
  map_Forall (λ _ v, isNonEmptyArray v = true) map →
  inherited (key r) = false →
  doDupKeys keyDelimiter true keyColNames valColNames r map =
  Normal (<[key r := JArray (sequence_at map (key r) ++ [value true r])]> map).
Proof.
  move=> Hall Hkey.
  rewrite /doDupKeys /mapGet /mapSet /sequence_at -/key -/(value true).
  rewrite (not_inherited_proto _ Hkey) (not_inherited_None _ Hkey).
  case E: (map !! key r) => [v|] /=.
  - move: (Hall _ _ E). by case: v {E} => [|s|props|[|e elems]|name|].
  - by rewrite insert_insert_eq.
Qed.


Lemma arrays_push (map : gmap string jsval) k elems v :
  map_Forall (λ _ v, isNonEmptyArray v = true) map →
  map_Forall (λ _ v, isNonEmptyArray v = true)
             (<[k := JArray (elems ++ [v])]> map).
Proof.
  move=> Hall. apply map_Forall_insert_2; last done.
  by case: elems.
Qed.

(** A throwing call leaves the map as it was; any other call keeps every
    value a non-empty array. *)
Lemma doDupKeys_keeps_arrays r (map : gmap string jsval) :
  map_Forall (λ _ v, isNonEmptyArray v = true) map →
  match doDupKeys keyDelimiter true keyColNames valColNames r map with
  | Normal map' => map_Forall (λ _ v, isNonEmptyArray v = true) map'
  | Throw _ => True
  end.
Proof.
  move=> Hall. rewrite /doDupKeys /mapGet /mapSet -/key.
  case Ek: (String.eqb (key r) "__proto__"); first done.
  case E: (map !! key r) => [v|].
  - move: (Hall _ _ E). case: v {E} => [|s|props|[|e elems]|name|] //= _.
    exact: (arrays_push map (key r) (e :: elems)).
  - case Ep: (ObjectPrototype (key r)) => [x|] /=.
    + case: (ObjectPrototype_member _ _ Ep) => -> Hx /=.
      by case: x Hx {Ep} => [|s|props|elems|name|] // /(_ elems).
    + rewrite insert_insert_eq. exact: (arrays_push map (key r) []).
Qed.

Lemma drain_keeps_arrays rs (map : gmap string jsval) :
  map_Forall (λ _ v, isNonEmptyArray v = true) map →
  map_Forall (λ _ v, isNonEmptyArray v = true) (run true rs map).1.
Proof.
  elim: rs map => [//|r rs IH] map Hall. rewrite /run /= /onData -/run.
  move: (doDupKeys_keeps_arrays r map Hall).
  case: (doDupKeys _ _ _ _ r map) => [map'|e] //. exact: IH.
Qed.

Lemma drain_dup_sequences rs (map : gmap string jsval) :
  map_Forall (λ _ v, isNonEmptyArray v = true) map →
  Forall (λ r, inherited (key r) = false) rs →
  ∃ map', run true rs map = (map', None) ∧
    map_Forall (λ _ v, isNonEmptyArray v = true) map' ∧
    ∀ k, sequence_at map' k =
         sequence_at map k
           ++ (value true <$> keyed keyDelimiter keyColNames k rs).
Proof.
  elim: rs map => [|r rs IH] map Hall.
  - exists map. do 2 (split; first done). move=> k. by rewrite app_nil_r.
  - move=> /Forall_cons [Hr Hrs].
    rewrite /run /= /onData doDupKeys_arrays // -/run.
    have Hpush :=
      arrays_push map (key r) (sequence_at map (key r)) (value true r) Hall.
    case: (IH _ Hpush Hrs) => map' [Hrun [Hall' Hseq]].
    exists map'. do 2 (split; first done). move=> k.
    rewrite Hseq sequence_at_insert /keyed filter_cons -/key.
    case_decide as Hk.
    + by rewrite Hk fmap_cons -app_assoc.
    + done.
Qed.


(** No handler throws on rows without a fatal key. *)
Lemma drain_total duplicateKeys rs :
  Forall (λ r, fatal duplicateKeys (key r) = false) rs →
  ∃ map', run duplicateKeys rs ∅ = (map', None).
Proof.
  case: duplicateKeys => Hrs.
  - case: (drain_dup_sequences rs ∅ (map_Forall_empty _) Hrs) => map' [H _].
    by exists map'.
  - case: (drain_normal_lookup rs ∅ "") => map' [H _]. by exists map'.
Qed.

Lemma drain_app duplicateKeys rs1 rs2 (map map1 : gmap string jsval) :
  run duplicateKeys rs1 map = (map1, None) →
  run duplicateKeys (rs1 ++ rs2) map = run duplicateKeys rs2 map1.
Proof.
  elim: rs1 map => [|r rs1 IH] map.
  - by move=> [->].
  - rewrite /run /=. case: (onData _ _ _ _ r map) => [m|e] //.
    exact: IH.
Qed.
End Aggregator.

Lemma fatal_inherited duplicateKeys (P : row → string) (rs : list row) :
  Forall (λ r, inherited (P r) = false) rs →
  Forall (λ r, fatal duplicateKeys (P r) = false) rs.
Proof.
  move=> Hrs. apply: Forall_impl Hrs _ => r Hr.
  by rewrite /fatal Hr andb_false_r.
Qed.

(** ** The sequencer *)

Lemma pipes_S from n : pipes from (S n) = EPipe from :: pipes (S from) n.
Proof. reflexivity. Qed.


Section Sequencer.
Variable keyDelimiter : string.
Variable duplicateKeys : bool.
Variables keyColNames valColNames : list string.

Let run := drain keyDelimiter duplicateKeys keyColNames valColNames.
Let handle := emit keyDelimiter duplicateKeys keyColNames valColNames.
Let go := doIt keyDelimiter duplicateKeys keyColNames valColNames.

Lemma drain_app_inv rs1 rs2 (map map2 : gmap string jsval) :
  run (rs1 ++ rs2) map = (map2, None) →
  ∃ map1, run rs1 map = (map1, None) ∧ run rs2 map1 = (map2, None).
Proof.
  elim: rs1 map => [|r rs1 IH] map; first by exists map.
  rewrite /run /=. case: (onData _ _ _ _ r map) => [m|e] //.
  exact: IH.
Qed.

(** ['data'] events whose handler calls complete leave only the map
    changed. *)
Lemma emit_data next rs evs st (map : gmap string jsval) :
  run rs (State.map st) = (map, None) →
  handle next ((Data <$> rs) ++ evs) st =
  handle next evs (State.mk map (State.currentStream st) (State.events st)).
Proof.
  elim: rs st => [|r rs IH] st.
  - move=> [<-]. by case: st.
  - rewrite /run /handle /=.
    case: (onData _ _ _ _ r (State.map st)) => [m|e] //.
    exact: (IH (State.mk m _ _)).
Qed.

(** Streams that finish are drained one after the other: when the stream
    behind them is reached, every row of theirs is in the map. *)
Lemma doIt_finished rss rest st (map : gmap string jsval) :
  run (concat rss) (State.map st) = (map, None) →
  go ((finishing <$> rss) ++ rest) st =
  go rest (State.mk map (State.currentStream st + length rss)
             (State.events st ++ pipes (State.currentStream st) (length rss))).
Proof.
  elim: rss st => [|rs rss IH] st.
  - move=> [<-]. case: st => m n evs /=.
    by rewrite Nat.add_0_r app_nil_r.
  - move=> /drain_app_inv [map1 [H1 H2]].
    rewrite fmap_cons /go /= -/handle /finishing.
    rewrite (emit_data _ _ _ (State.mk (State.map st) _ _) map1 H1).
    rewrite /handle /= -/go (IH (State.mk map1 _ _) H2) /= pipes_S.
    by rewrite -app_assoc Nat.add_succ_r.
Qed.

Lemma doIt_all_finished rss st (map : gmap string jsval) :
  run (concat rss) (State.map st) = (map, None) →
  go (finishing <$> rss) st =
  State.mk map (State.currentStream st + length rss)
    (State.events st ++ pipes (State.currentStream st) (length rss)
       ++ [ECallback None (Some map)]).
Proof.
  move=> Hrun.
  rewrite -(app_nil_r (finishing <$> rss)) (doIt_finished _ _ _ _ Hrun) /=.
  by rewrite app_assoc.
Qed.

End Sequencer.

Lemma emit_arrays keyDelimiter keyColNames valColNames next evs st :
  (∀ st', map_Forall (λ _ v, isNonEmptyArray v = true) (State.map st') →
          map_Forall (λ _ v, isNonEmptyArray v = true)
                     (State.map (next st'))) →
  map_Forall (λ _ v, isNonEmptyArray v = true) (State.map st) →
  map_Forall (λ _ v, isNonEmptyArray v = true)
    (State.map (emit keyDelimiter true keyColNames valColNames next evs st)).
Proof.
  move=> Hnext. elim: evs st => [//|ev evs IH] st Hall.
  case: ev => [r|err|] /=.
  - rewrite /onData.
    move: (doDupKeys_keeps_arrays keyDelimiter keyColNames valColNames r
             (State.map st) Hall).
    case: (doDupKeys _ _ _ _ r (State.map st)) => [map'|e] //= Hall'.
    exact: (IH (State.mk map' _ _)).
  - exact: IH.
  - exact: Hnext.
Qed.

Lemma doIt_arrays keyDelimiter keyColNames valColNames pending st :
  map_Forall (λ _ v, isNonEmptyArray v = true) (State.map st) →
  map_Forall (λ _ v, isNonEmptyArray v = true)
    (State.map (doIt keyDelimiter true keyColNames valColNames pending st)).
Proof.
  elim: pending st => [//|f pending IH] st Hall /=.
  exact: emit_arrays.
Qed.

(** The handlers themselves do not stop after an error: only ['finish']
    moves on, and it does so whether or not an ['error'] came before.  Were
    the parser to emit ['finish'] after ['error'], the next stream would be
    piped and the callback called a second time. *)
Remark finish_after_error_goes_on keyDelimiter duplicateKeys keyColNames
    valColNames err evs st :
  doIt keyDelimiter duplicateKeys keyColNames valColNames
       [ParseError err :: Finish :: evs] st =
  State.mk (State.map st) (S (State.currentStream st))
    (State.events st
       ++ [EPipe (State.currentStream st); ECallback (Some err) None;
           ECallback None (Some (State.map st))]).
Proof. by rewrite /= -!app_assoc. Qed.

(** ** [build] *)

Lemma resolveStream_creation input :
  Forall (λ e, isCreation e = true) (resolveStream input).2.
Proof.
  case: input => [s|f] /=; last by constructor.
  case: (hasNewline s); by repeat constructor.
Qed.

Lemma resolveEach_creation l (ss : list rstream) (evs : list event) :
  Forall (λ e, isCreation e = true) evs →
  Forall (λ e, isCreation e = true)
    (fold_left
       (λ (acc : list rstream * list event) input,
          let '(s, evs) := resolveStream input in
          (acc.1 ++ [s], acc.2 ++ evs))
       l (ss, evs)).2.
Proof.
  elim: l ss evs => [//|x l IH] ss evs Hevs /=.
  move: (resolveStream_creation x). case: (resolveStream x) => s evs' /= Hx.
  apply IH. by apply Forall_app.
Qed.

Lemma created_creation options :
  Forall (λ e, isCreation e = true) (created options).
Proof.
  rewrite /created /resolveInputs. move: (Options.input options) => i.
  case: (inputs_falsy i); first by repeat constructor.
  by apply resolveEach_creation.
Qed.

Lemma resolveEach_unfold l (ss : list rstream) (evs : list event) :
  fold_left
    (λ (acc : list rstream * list event) input,
       let '(s, evs) := resolveStream input in
       (acc.1 ++ [s], acc.2 ++ evs))
    l (ss, evs) =
  (ss ++ ((λ i, (resolveStream i).1) <$> l),
   evs ++ concat ((λ i, (resolveStream i).2) <$> l)).
Proof.
  elim: l ss evs => [|x l IH] ss evs /=; first by rewrite !app_nil_r.
  case: (resolveStream x) => s evs' /=. by rewrite IH -!app_assoc.
Qed.

(** [instream] holds one stream per input, in input order, or standard
    input alone; creating them leaves one event per string input. *)
Lemma feeds_unfold w options :
  feeds w options =
  if inputs_falsy (Options.input options) then [stdin_feed w]
  else (λ i, feed_of w (resolveStream i).1)
         <$> inputs_array (Options.input options).
Proof.
  rewrite /feeds /resolveInputs. case: (inputs_falsy _); first done.
  by rewrite resolveEach_unfold /= -list_fmap_compose.
Qed.

Lemma created_unfold options :
  created options =
  if inputs_falsy (Options.input options) then [EStdin]
  else concat ((λ i, (resolveStream i).2)
                 <$> inputs_array (Options.input options)).
Proof.
  rewrite /created /resolveInputs. case: (inputs_falsy _); first done.
  by rewrite resolveEach_unfold.
Qed.

Lemma build_started w options :
  names_falsy (Options.keyColNames options) = false →
  build w options =
  (Normal tt,
   doIt_in options (feeds w options) (State.mk ∅ 0 (created options))).
Proof.
  move=> Hkeys. rewrite /build /feeds /created /doIt_in /valColNames_of.
  case: (resolveInputs _) => instream evs. by rewrite Hkeys.
Qed.

Lemma build_rejected w options :
  names_falsy (Options.keyColNames options) = true →
  build w options =
  (Throw (Error "options.keyColNames required. [object Object]"),
   State.mk ∅ 0 (created options)).
Proof.
  move=> Hkeys. rewrite /build /created.
  case: (resolveInputs _) => instream evs. by rewrite Hkeys.
Qed.

Lemma filter_callback_creation evs :
  Forall (λ e, isCreation e = true) evs →
  filter (λ e, isCallback e = true) evs = [].
Proof.
  elim: evs => [//|e evs IH] /Forall_cons [He Hevs].
  rewrite filter_cons_False ?IH //. by case: e He.
Qed.


Lemma drain_dup_lookup keyDelimiter keyColNames valColNames rs k :
  Forall (λ r, inherited (getKey keyDelimiter keyColNames r) = false) rs →
  ∃ map : gmap string jsval,
    drain keyDelimiter true keyColNames valColNames rs ∅ = (map, None) ∧
    map_Forall (λ _ v, isNonEmptyArray v = true) map ∧
    map !! k =
    match keyed keyDelimiter keyColNames k rs with
    | [] => None
    | r :: krs => Some (JArray (getValue true valColNames <$> r :: krs))
    end.
Proof.
  move=> Hrs.
  case: (drain_dup_sequences keyDelimiter keyColNames valColNames rs ∅
           (map_Forall_empty _) Hrs) => map [Hrun [Hall Hseq]].
  exists map. do 2 (split; first done).
  move: (Hseq k). rewrite {2}/sequence_at lookup_empty app_nil_l /sequence_at.
  case E: (map !! k) => [v|].
  - move: (Hall _ _ E). case: v {E} => [|s|props|[|e elems]|name|] // _ Hk.
    rewrite Hk. by case: (keyed _ _ _ _) Hk.
  - by case: (keyed _ _ _ _).
Qed.

Lemma drain_normal_last keyDelimiter keyColNames valColNames rs k :
  ∃ map : gmap string jsval,
    drain keyDelimiter false keyColNames valColNames rs ∅ = (map, None) ∧
    map !! k =
    if String.eqb k "__proto__" then None
    else getValue false valColNames
           <$> last (keyed keyDelimiter keyColNames k rs).
Proof.
  case: (drain_normal_lookup keyDelimiter keyColNames valColNames rs ∅ k)
    => map [Hrun Hk].
  exists map. split; first done.
  rewrite Hk. case: (String.eqb k "__proto__"); first done.
  by case: (last _).
Qed.

(** * The claims *)

(** C1 fails on the code.  Under [duplicateKeys] a row whose key names a
    member of [Object.prototype] is not appended to a sequence at its key:
    [map[key]] finds the inherited member, which is truthy and has no
    [push], so no sequence is started and the handler throws.  With rows
    keyed Joe, constructor, Joe the run ends at the second row: the map
    holds the first row only, and [build] dies of the uncaught exception
    without calling back. *)
Theorem C1_inherited_key_is_not_appended :
  getKey "_" ["Name"] [("Name", "constructor"); ("Sport", "Rugby")] =
  "constructor" ∧
  doDupKeys "_" true ["Name"] ["Sport"]
            [("Name", "constructor"); ("Sport", "Rugby")] ∅ =
  Throw (TypeError "o.push is not a function") ∧
  drain "_" true ["Name"] ["Sport"] heirs ∅ =
  ({["Joe" := JArray [JString "Soccer"]]},
   Some (TypeError "o.push is not a function")) ∧
  build sample_world
        (Options.mk (Single (StreamObj (finishing heirs)))
                    (Name "Name") (Name "Sport") true None) =
  (Normal tt,
   State.mk {["Joe" := JArray [JString "Soccer"]]} 0
            [EPipe 0; EUncaught (TypeError "o.push is not a function")]).
Proof. by vm_compute. Qed.

(** C2 fails on the code.  Without [duplicateKeys] the rows keyed
    [__proto__] leave no entry: the assignment [map['__proto__'] = value]
    goes to the prototype accessor.  Two rows sharing that key leave the
    map empty instead of holding the value of the later one, and so it is
    after any rows. *)
Theorem C2_proto_key_leaves_no_entry :
  last (keyed "_" ["Name"] "__proto__" protos) =
  Some [("Name", "__proto__"); ("Sport", "Chess")] ∧
  getValue false ["Sport"] [("Name", "__proto__"); ("Sport", "Chess")] =
  JString "Chess" ∧
  drain "_" false ["Name"] ["Sport"] protos ∅ = (∅, None) ∧
  (∀ keyDelimiter keyColNames valColNames rs,
     (drain keyDelimiter false keyColNames valColNames rs ∅).1
       !! "__proto__" = None).
Proof.
  split_and!; [done|done|done|].
  move=> keyDelimiter keyColNames valColNames rs.
  case: (drain_normal_last keyDelimiter keyColNames valColNames rs
           "__proto__") => map [-> Hk].
  exact: Hk.
Qed.

(** C3, as stated, fails: the sub-mapping for the value columns 2020, 2019
    lists 2019 first. *)
Lemma C3_counterexample :
  getValue false ["2020"; "2019"] years =
  JObject [("2019", JString "Soccer"); ("2020", JString "Boxing")] ∧
  ¬ (∀ r c1 c2 cols,
       NoDup (c1 :: c2 :: cols) →
       getValue false (c1 :: c2 :: cols) r =
       JObject ((λ c, (c, row_get r c)) <$> c1 :: c2 :: cols)).
Proof.
  split; first done.
  move=> Hall.
  have Hnd : NoDup ["2020"; "2019"] by apply (bool_decide_unpack _).
  by move: (Hall years "2020" "2019" [] Hnd).
Qed.

(** C3, as the code has it.  Value projection without [duplicateKeys].
    No value column: the row itself.  One value column: the row's value
    for it.  Two or more, none of them [__proto__]: a new object holding
    exactly the listed columns with their row values, each distinct name
    once and no other column; names that are array indices come first in
    ascending order, the other names follow at the position of their
    first mention, so that columns listed without repetition, none an
    array index, appear in listed order. *)
Theorem C3_value_projection (r : row) :
  getValue false [] r = JObject (row_object r) ∧
  (∀ c, getValue false [c] r = row_get r c) ∧
  (∀ c1 c2 cols,
     "__proto__" ∉ c1 :: c2 :: cols →
     ∃ names,
       getValue false (c1 :: c2 :: cols) r =
       JObject ((λ c, (c, row_get r c)) <$> names) ∧
       NoDup names ∧
       (∀ c, c ∈ names ↔ c ∈ c1 :: c2 :: cols) ∧
       StronglySorted indexOrder names ∧
       filter (λ c, arrayIndex c = None) names =
       filter (λ c, arrayIndex c = None) (listed (c1 :: c2 :: cols)) ∧
       (Forall (λ c, arrayIndex c = None) (c1 :: c2 :: cols) →
        NoDup (c1 :: c2 :: cols) → names = c1 :: c2 :: cols)) ∧
  getValue false ["SSN"; "Birthplace"] bill =
  JObject [("SSN", JString "111-22-3333");
           ("Birthplace", JString "Rochester NY")].
Proof.
  split_and!; [done|done| |done].
  move=> c1 c2 cols Hproto.
  exists (fold_left (λ names c, place c names) (c1 :: c2 :: cols) []).
  case: (placed_sorted (c1 :: c2 :: cols)) => Hsorted Hnd.
  split_and!.
  - by rewrite -submapping_placed.
  - done.
  - move=> c. exact: elem_of_placed.
  - done.
  - exact: placed_names_only.
  - move=> Hnames Hcols. by rewrite placed_listed // listed_NoDup.
Qed.

Lemma C3_value_projection_witness :
  getValue false ["SSN"; "Birthplace"; "Birthdate"] bill =
  JObject [("SSN", JString "111-22-3333");
           ("Birthplace", JString "Rochester NY");
           ("Birthdate", JString "3/11/1934")].
Proof.
  destruct (C3_value_projection bill) as [_ [_ [H _]]].
  destruct (H "SSN" "Birthplace" ["Birthdate"])
    as [names [Hval [_ [_ [_ [_ Hnames]]]]]].
  - apply (bool_decide_unpack _). vm_compute. exact I.
  - rewrite Hval Hnames.
    + reflexivity.
    + apply (bool_decide_unpack _). vm_compute. exact I.
    + apply (bool_decide_unpack _). vm_compute. exact I.
Defined.

(** C4. The composite key is the row's values for the key columns, each
    coerced to a string, in column order, joined by the delimiter: nothing
    before the first value or after the last.  Row
    [{First: "Bill", Last: "Smith"}] with key columns [First, Last] has key
    "Bill_Smith" under the default delimiter and "Bill-Smith" under "-". *)
Theorem C4_composite_key :
  (∀ keyDelimiter keyColNames r,
     getKey keyDelimiter keyColNames r =
     String.concat keyDelimiter
       ((λ c, toString (row_get r c)) <$> keyColNames)) ∧
  (∀ keyDelimiter c cols r,
     getKey keyDelimiter (c :: cols) r =
     toString (row_get r c) +:+
     String.concat ""
       ((λ c', keyDelimiter +:+ toString (row_get r c')) <$> cols)) ∧
  getKey (delimiter_of None) ["First"; "Last"]
         [("First", "Bill"); ("Last", "Smith")] = "Bill_Smith" ∧
  getKey (delimiter_of (Some "-")) ["First"; "Last"]
         [("First", "Bill"); ("Last", "Smith")] = "Bill-Smith".
Proof.
  split_and!; [| |done|done].
  - move=> keyDelimiter keyColNames r. exact: getKey_concat.
  - move=> keyDelimiter c cols r.
    by rewrite getKey_concat fmap_cons concat_prefixed -list_fmap_compose.
Qed.

(** C5 fails on the code.  Under [duplicateKeys] a row of the first source
    whose key names a member of [Object.prototype] makes the handler throw:
    the source behind it is never piped and the callback is never called.
    Without [duplicateKeys] the rows of a later source keyed [__proto__]
    leave no entry in the combined map. *)
Theorem C5_later_source_is_not_merged :
  build sample_world heirs_options =
  (Normal tt,
   State.mk {["Joe" := JArray [JString "Soccer"]]} 0
            [ECreateReadStream "clubs.csv"; EPipe 0;
             EUncaught (TypeError "o.push is not a function")]) ∧
  build sample_world protos_options =
  (Normal tt,
   State.mk {["Joe" := JString "Running"; "Ann" := JString "Rowing"]} 2
            [ECreateReadStream "clubs.csv"; EPipe 0; EPipe 1;
             ECallback None
               (Some {["Joe" := JString "Running";
                       "Ann" := JString "Rowing"]})]).
Proof. by vm_compute. Qed.

(** C6, as the code has it.  Without a key-column specification [build]
    throws its configuration error synchronously, before any stream is piped
    into the parser: no row has been read, the map is empty and the callback
    is never called.  The input streams have been resolved by then, so the
    only effects are their creation (a read stream for each file name). *)
Theorem C6_rejected_before_piping w options :
  names_falsy (Options.keyColNames options) = true →
  build w options =
  (Throw (Error "options.keyColNames required. [object Object]"),
   State.mk ∅ 0 (created options)) ∧
  Forall (λ e, isCreation e = true) (created options) ∧
  created options =
  (if inputs_falsy (Options.input options) then [EStdin]
   else concat ((λ i, (resolveStream i).2)
                  <$> inputs_array (Options.input options))) ∧
  (∀ path, hasNewline path = false →
           resolveStream (Str path) =
           (ReadStream path, [ECreateReadStream path])).
Proof.
  move=> Hkeys. split_and!.
  - exact: build_rejected.
  - exact: created_creation.
  - exact: created_unfold.
  - move=> path Hpath. by rewrite /resolveStream Hpath.
Qed.

Lemma C6_rejected_before_piping_witness :
  build sample_world keyless_options =
  (Throw (Error "options.keyColNames required. [object Object]"),
   State.mk ∅ 0 [ECreateReadStream "sports.csv"]).
Proof.
  exact (proj1 (C6_rejected_before_piping sample_world keyless_options
                  eq_refl)).
Defined.

(** C6, as stated, fails: with [input] naming a file and no key columns,
    [fs.createReadStream] has run by the time the error is thrown. *)
Lemma C6_counterexample :
  names_falsy (Options.keyColNames keyless_options) = true ∧
  build sample_world keyless_options =
  (Throw (Error "options.keyColNames required. [object Object]"),
   State.mk ∅ 0 [ECreateReadStream "sports.csv"]) ∧
  ¬ (∀ w options,
       names_falsy (Options.keyColNames options) = true →
       State.events (build w options).2 = []).
Proof.
  split_and!; [done|done|].
  move=> Hnone. by move: (Hnone sample_world keyless_options eq_refl).
Qed.




(** C8 fails on the code.  A column the row does not have but
    [Object.prototype] has, such as [toString], reads as the inherited
    function: the composite key gets the function's source text and the
    projected value is the function, not [undefined]. *)
Theorem C8_absent_column_is_inherited :
  own (row_object bill) "toString" = None ∧
  row_get bill "toString" = JFunction "toString" ∧
  getKey "_" ["Name"; "toString"] bill =
  "Bill_function toString() { [native code] }" ∧
  getValue true ["toString"] bill = JFunction "toString" ∧
  getValue false ["toString"] bill = JFunction "toString" ∧
  getValue false ["Name"; "toString"] bill =
  JObject [("Name", JString "Bill"); ("toString", JFunction "toString")].
Proof. by vm_compute. Qed.


(** C10. Under [duplicateKeys], after any number of rows (whether or
    not the last one handled made the handler throw), and in the map
    [build] ends with whatever its input, every value in the map is an
    array with at least one element. *)
Theorem C10_sequences_never_empty :
  (∀ keyDelimiter keyColNames valColNames rs,
     map_Forall (λ _ v, isNonEmptyArray v = true)
       (drain keyDelimiter true keyColNames valColNames rs ∅).1) ∧
  (∀ w input keyColNames valColNames keyDelimiter,
     map_Forall (λ _ v, isNonEmptyArray v = true)
       (State.map (build w (Options.mk input keyColNames valColNames true
                                       keyDelimiter)).2)).
Proof.
  split.
  - move=> keyDelimiter keyColNames valColNames rs.
    apply drain_keeps_arrays. exact: map_Forall_empty.
  - move=> w input keyColNames valColNames keyDelimiter.
    case Hkeys: (names_falsy keyColNames).
    + by rewrite build_rejected.
    + rewrite build_started //. apply doIt_arrays. exact: map_Forall_empty.
Qed.

(** * Further properties of the code *)

(** ** Splitting at a character *)

Lemma split_nonempty sep s : split sep s ≠ [].
Proof.
  case: s => [//|c s] /=. case: (Ascii.eqb c sep); first done.
  by case: (split sep s).
Qed.

Lemma concat_split sep s :
  String.concat (String sep "") (split sep s) = s.
Proof.
  elim: s => [//|c s IH] /=.
  case E: (Ascii.eqb c sep).
  - move/Ascii.eqb_eq: E => ->.
    case: (split sep s) IH (split_nonempty sep s) => [//|p ps] IH _.
    by rewrite concat_cons_cons IH.
  - case: (split sep s) IH (split_nonempty sep s) => [//|p ps] IH _.
    rewrite concat_prefixed. rewrite concat_prefixed in IH.
    by rewrite -IH.
Qed.

Lemma split_free sep s :
  Forall (λ p, hasChar sep p = false) (split sep s).
Proof.
  elim: s => [|c s IH] /=; first by repeat constructor.
  case E: (Ascii.eqb c sep); first by constructor.
  case: (split sep s) IH => [_|p ps /Forall_cons [Hp Hps]].
  - constructor; last done. by rewrite /= E.
  - constructor; last done. by rewrite /= E.
Qed.

Lemma split_free_id sep p : hasChar sep p = false → split sep p = [p].
Proof.
  elim: p => [//|c p IH] /= /orb_false_iff [-> Hp]. by rewrite IH.
Qed.

Lemma split_free_app sep p s :
  hasChar sep p = false →
  split sep (p +:+ String sep s) = p :: split sep s.
Proof.
  elim: p => [|c p IH] /=.
  - move=> _. change ("" +:+ String sep s) with (String sep s).
    by rewrite /= Ascii.eqb_refl.
  - move=> /orb_false_iff [Hc Hp].
    change (String c p +:+ String sep s) with (String c (p +:+ String sep s)).
    by rewrite /= Hc IH.
Qed.

Lemma split_concat sep p ps :
  Forall (λ p, hasChar sep p = false) (p :: ps) →
  split sep (String.concat (String sep "") (p :: ps)) = p :: ps.
Proof.
  elim: ps p => [|q ps IH] p /Forall_cons [Hp Hps].
  - exact: split_free_id.
  - rewrite concat_cons_cons.
    change (String sep "" +:+ String.concat (String sep "") (q :: ps))
      with (String sep (String.concat (String sep "") (q :: ps))).
    by rewrite split_free_app // IH.
Qed.

(** X1. [list] loses nothing: joining its parts with commas gives the
    value back; it always returns at least one part, and no part contains
    a comma. *)
Theorem X1_list_join_round_trip (val : string) :
  String.concat "," (list_of val) = val ∧
  list_of val ≠ [] ∧
  Forall (λ part, hasChar "," part = false) (list_of val).
Proof.
  split_and!.
  - exact: concat_split.
  - exact: split_nonempty.
  - exact: split_free.
Qed.

(** X2. [list] recovers any non-empty list of comma-free names from its
    comma-separated form. *)
Theorem X2_list_of_joined (part : string) (parts : list string) :
  Forall (λ p, hasChar "," p = false) (part :: parts) →
  list_of (String.concat "," (part :: parts)) = part :: parts.
Proof. exact: split_concat. Qed.

Lemma X2_list_of_joined_witness :
  list_of "First,Last" = ["First"; "Last"].
Proof.
  apply (X2_list_of_joined "First" ["Last"]). repeat constructor.
Defined.

(** X3. With a delimiter of one character, and rows that hold every key
    column with a value in which the delimiter does not occur, the values
    can be read back from the composite key by splitting it at the
    delimiter; hence two such rows with the same key have the same value
    in every key column. *)
Theorem X3_key_determines_values (d : ascii) col cols (r1 r2 : row) :
  Forall (λ c, cellFree d r1 c = true) (col :: cols) →
  Forall (λ c, cellFree d r2 c = true) (col :: cols) →
  split d (getKey (String d "") (col :: cols) r1) =
  (λ c, toString (row_get r1 c)) <$> col :: cols ∧
  (getKey (String d "") (col :: cols) r1 =
   getKey (String d "") (col :: cols) r2 →
   Forall (λ c, row_get r1 c = row_get r2 c) (col :: cols)).
Proof.
  move=> H1 H2.
  have Hfree : ∀ r c, cellFree d r c = true →
                      hasChar d (toString (row_get r c)) = false.
  { move=> r c. rewrite /cellFree.
    case: (row_get r c) => [|s|props|elems|name|] //=.
    by case: (hasChar d s). }
  have Hback : ∀ r,
    Forall (λ c, cellFree d r c = true) (col :: cols) →
    split d (getKey (String d "") (col :: cols) r) =
    (λ c, toString (row_get r c)) <$> col :: cols.
  { move=> r /Forall_cons [Hc Hcs].
    rewrite getKey_concat !fmap_cons. apply split_concat.
    constructor; first exact: Hfree.
    apply Forall_fmap. apply: Forall_impl Hcs _ => c. exact: Hfree. }
  split; first exact: Hback.
  move=> Hkey.
  have Hstrings : (λ c, toString (row_get r1 c)) <$> col :: cols =
                  (λ c, toString (row_get r2 c)) <$> col :: cols
    by rewrite -(Hback r1 H1) -(Hback r2 H2) Hkey.
  elim: (col :: cols) H1 H2 Hstrings => [|c l IH]; first by constructor.
  move=> /Forall_cons [Hc1 Hl1] /Forall_cons [Hc2 Hl2].
  rewrite !fmap_cons => -[Hc Hl].
  constructor; last exact: IH.
  move: Hc1 Hc2 Hc. rewrite /cellFree.
  case: (row_get r1 c) => [|s1|props1|elems1|name1|] //.
  case: (row_get r2 c) => [|s2|props2|elems2|name2|] //= _ _.
  by move=> ->.
Qed.

Lemma X3_key_determines_values_witness :
  split "_" (getKey "_" ["First"; "Last"] bill_smith) = ["Bill"; "Smith"].
Proof.
  refine (proj1 (X3_key_determines_values "_" "First" ["Last"]
                   bill_smith bill_smith _ _));
    repeat constructor.
Defined.

(** ** The aggregated map *)

Lemma keyed_nil_iff keyDelimiter keyColNames k rs :
  keyed keyDelimiter keyColNames k rs = [] ↔
  k ∉ getKey keyDelimiter keyColNames <$> rs.
Proof.
  rewrite /keyed list_elem_of_fmap. split.
  - move=> Hnil [r [Hk Hr]].
    apply (filter_nil_not_elem_of _ _ r Hnil); by [|done].
  - move=> Hnot. case E: (filter _ rs) => [//|r krs]. exfalso.
    have: r ∈ filter (λ r, getKey keyDelimiter keyColNames r = k) rs
      by rewrite E; left.
    move=> /list_elem_of_filter [Hk Hr]. apply Hnot. by exists r.
Qed.

Lemma keyed_inherited keyDelimiter keyColNames k rs :
  Forall (λ r, inherited (getKey keyDelimiter keyColNames r) = false) rs →
  inherited k = true →
  keyed keyDelimiter keyColNames k rs = [].
Proof.
  move=> Hrs Hk. apply keyed_nil_iff. rewrite list_elem_of_fmap.
  move=> [r [Hkr Hr]]. move/Forall_forall: Hrs => /(_ r Hr).
  by rewrite -Hkr Hk.
Qed.

Lemma size_list_to_set_le (l : list string) :
  size (list_to_set l : gset string) ≤ length l.
Proof.
  elim: l => [|x l IH]; first by rewrite list_to_set_nil size_empty.
  rewrite list_to_set_cons size_union_alt size_singleton /=.
  have Hsub : size (list_to_set l ∖ {[x]} : gset string)
              ≤ size (list_to_set l : gset string)
    by apply subseteq_size; set_solver.
  lia.
Qed.

(** The overwrite policy has no fatal key. *)
Lemma fatal_overwrite (P : row → string) (rs : list row) :
  Forall (λ r, fatal false (P r) = false) rs.
Proof. by apply Forall_forall. Qed.

Lemma drain_normal_total keyDelimiter keyColNames valColNames rs :
  ∃ map : gmap string jsval,
    drain keyDelimiter false keyColNames valColNames rs ∅ = (map, None).
Proof. apply drain_total. exact: fatal_overwrite. Qed.

Lemma drain_normal_map keyDelimiter keyColNames valColNames rs
    (map : gmap string jsval) k :
  drain keyDelimiter false keyColNames valColNames rs ∅ = (map, None) →
  map !! k =
  if String.eqb k "__proto__" then None
  else getValue false valColNames
         <$> last (keyed keyDelimiter keyColNames k rs).
Proof.
  case: (drain_normal_last keyDelimiter keyColNames valColNames rs k)
    => map' [-> Hk] [<-]. exact: Hk.
Qed.

(** With no row keyed by a member of [Object.prototype], the overwrite
    policy keeps the last row of every key. *)
Lemma drain_normal_map_ordinary keyDelimiter keyColNames valColNames rs
    (map : gmap string jsval) k :
  Forall (λ r, inherited (getKey keyDelimiter keyColNames r) = false) rs →
  drain keyDelimiter false keyColNames valColNames rs ∅ = (map, None) →
  map !! k =
  getValue false valColNames <$> last (keyed keyDelimiter keyColNames k rs).
Proof.
  move=> Hrs Hrun. rewrite (drain_normal_map _ _ _ _ _ k Hrun).
  case E: (String.eqb k "__proto__"); last done.
  move/String.eqb_eq: E => ->.
  by rewrite (keyed_inherited _ _ _ _ Hrs inherited_proto).
Qed.

Lemma drain_dup_map keyDelimiter keyColNames valColNames rs
    (map : gmap string jsval) k :
  Forall (λ r, inherited (getKey keyDelimiter keyColNames r) = false) rs →
  drain keyDelimiter true keyColNames valColNames rs ∅ = (map, None) →
  map !! k =
  match keyed keyDelimiter keyColNames k rs with
  | [] => None
  | r :: krs => Some (JArray (getValue true valColNames <$> r :: krs))
  end.
Proof.
  move=> Hrs.
  case: (drain_dup_lookup keyDelimiter keyColNames valColNames rs k Hrs)
    => map' [-> [_ Hk]] [<-]. exact: Hk.
Qed.

(** Under either policy, when no row is keyed by a member of
    [Object.prototype], the map of a run from the empty map has a value at
    a key exactly when some row has that key. *)
Lemma drain_lookup_is_Some keyDelimiter duplicateKeys keyColNames
    valColNames rs :
  Forall (λ r, inherited (getKey keyDelimiter keyColNames r) = false) rs →
  ∃ map : gmap string jsval,
    drain keyDelimiter duplicateKeys keyColNames valColNames rs ∅
    = (map, None) ∧
    ∀ k, map !! k = None ↔ keyed keyDelimiter keyColNames k rs = [].
Proof.
  move=> Hrs.
  case: (drain_total keyDelimiter keyColNames valColNames duplicateKeys rs
           (fatal_inherited _ _ _ Hrs)) => map Hrun.
  exists map. split; first done. move=> k. move: Hrun.
  case: duplicateKeys => Hrun.
  - rewrite (drain_dup_map _ _ _ _ _ k Hrs Hrun). by case: (keyed _ _ _ _).
  - rewrite (drain_normal_map_ordinary _ _ _ _ _ k Hrs Hrun) fmap_None.
    exact: last_None.
Qed.

Lemma drain_dom keyDelimiter duplicateKeys keyColNames valColNames rs :
  Forall (λ r, inherited (getKey keyDelimiter keyColNames r) = false) rs →
  ∃ map : gmap string jsval,
    drain keyDelimiter duplicateKeys keyColNames valColNames rs ∅
    = (map, None) ∧
    dom map = list_to_set (getKey keyDelimiter keyColNames <$> rs).
Proof.
  move=> Hrs.
  case: (drain_lookup_is_Some keyDelimiter duplicateKeys keyColNames
           valColNames rs Hrs) => map [Hrun Hk].
  exists map. split; first done.
  apply set_eq => k. rewrite elem_of_dom elem_of_list_to_set.
  rewrite -not_eq_None_Some Hk keyed_nil_iff.
  split; last by move=> ? ?.
  move=> Hnn. by destruct (decide (k ∈ getKey keyDelimiter keyColNames
                                         <$> rs)).
Qed.

(** X4. Under either policy, when no row is keyed by the name of a member
    of [Object.prototype], no handler throws and the keys of the resulting
    map are exactly the composite keys of the rows handled, so the map has
    no more entries than there were rows. *)
Theorem X4_keys_are_the_row_keys keyDelimiter duplicateKeys keyColNames
    valColNames rs :
  Forall (λ r, inherited (getKey keyDelimiter keyColNames r) = false) rs →
  ∃ map : gmap string jsval,
    drain keyDelimiter duplicateKeys keyColNames valColNames rs ∅
    = (map, None) ∧
    dom map = list_to_set (getKey keyDelimiter keyColNames <$> rs) ∧
    size map ≤ length rs.
Proof.
  move=> Hrs.
  case: (drain_dom keyDelimiter duplicateKeys keyColNames valColNames rs
           Hrs) => map [Hrun Hdom].
  exists map. do 2 (split; first done).
  rewrite -size_dom Hdom -(length_fmap (getKey keyDelimiter keyColNames) rs).
  exact: size_list_to_set_le.
Qed.

Lemma X4_keys_are_the_row_keys_witness :
  ∃ map : gmap string jsval,
    drain "_" true ["Name"] ["Sport"] sports ∅ = (map, None) ∧
    dom map = list_to_set (getKey "_" ["Name"] <$> sports) ∧
    size map ≤ length sports.
Proof.
  apply (X4_keys_are_the_row_keys "_" true ["Name"] ["Sport"] sports).
  apply (bool_decide_unpack _). vm_compute. exact I.
Defined.

(** X5. Overwrite policy: handling the same rows a second time changes
    nothing. *)
Theorem X5_overwrite_twice_is_once keyDelimiter keyColNames valColNames rs :
  drain keyDelimiter false keyColNames valColNames (rs ++ rs) ∅ =
  drain keyDelimiter false keyColNames valColNames rs ∅.
Proof.
  case: (drain_normal_total keyDelimiter keyColNames valColNames (rs ++ rs))
    => map2 H2.
  case: (drain_normal_total keyDelimiter keyColNames valColNames rs)
    => map1 H1.
  rewrite H1 H2. f_equal. apply map_eq => k.
  rewrite (drain_normal_map _ _ _ _ _ k H1) (drain_normal_map _ _ _ _ _ k H2).
  case: (String.eqb k "__proto__"); first done.
  rewrite /keyed filter_app last_app. by case: (last _).
Qed.

(** X7. With exactly one value column, and no row keyed by the name of a
    member of [Object.prototype], the two policies agree on the last
    value: what the overwrite policy stores at a key is the last element
    of the sequence the accumulate policy stores there. *)
Theorem X7_overwrite_is_last_of_accumulate keyDelimiter keyColNames
    (c : string) rs k :
  Forall (λ r, inherited (getKey keyDelimiter keyColNames r) = false) rs →
  ∃ map1 map2 : gmap string jsval,
    drain keyDelimiter false keyColNames [c] rs ∅ = (map1, None) ∧
    drain keyDelimiter true keyColNames [c] rs ∅ = (map2, None) ∧
    map1 !! k = map2 !! k ≫= lastElem.
Proof.
  move=> Hrs.
  case: (drain_normal_total keyDelimiter keyColNames [c] rs) => map1 H1.
  case: (drain_total keyDelimiter keyColNames [c] true rs
           (fatal_inherited _ _ _ Hrs)) => map2 H2.
  exists map1, map2. do 2 (split; first done).
  rewrite (drain_normal_map_ordinary _ _ _ _ _ k Hrs H1)
          (drain_dup_map _ _ _ _ _ k Hrs H2).
  case: (keyed _ _ _ _) => [//|r krs].
  change (getValue false [c]) with (getValue true [c]).
  exact: (eq_sym (fmap_last _ _)).
Qed.

Lemma X7_overwrite_is_last_of_accumulate_witness :
  ∃ map1 map2 : gmap string jsval,
    drain "_" false ["Name"] ["Sport"] sports ∅ = (map1, None) ∧
    drain "_" true ["Name"] ["Sport"] sports ∅ = (map2, None) ∧
    map1 !! "Joe" = map2 !! "Joe" ≫= lastElem.
Proof.
  apply (X7_overwrite_is_last_of_accumulate "_" ["Name"] "Sport" sports
           "Joe").
  apply (bool_decide_unpack _). vm_compute. exact I.
Defined.

(** X8. Accumulate policy without a value column: the value read is the
    row's property named "undefined", so rows that have no such column
    (and no key naming a member of [Object.prototype]) all contribute
    [undefined], one per row. *)
Theorem X8_accumulate_without_value_column keyDelimiter keyColNames rs k :
  Forall (λ r, own (row_object r) "undefined" = None) rs →
  Forall (λ r, inherited (getKey keyDelimiter keyColNames r) = false) rs →
  ∃ map : gmap string jsval,
    drain keyDelimiter true keyColNames [] rs ∅ = (map, None) ∧
    map !! k =
    match keyed keyDelimiter keyColNames k rs with
    | [] => None
    | r :: krs => Some (JArray (replicate (S (length krs)) JUndefined))
    end.
Proof.
  move=> Hrs Hkeys.
  case: (drain_total keyDelimiter keyColNames [] true rs
           (fatal_inherited _ _ _ Hkeys)) => map Hrun.
  exists map. split; first done.
  rewrite (drain_dup_map _ _ _ _ _ k Hkeys Hrun).
  have Hk : Forall (λ r, own (row_object r) "undefined" = None)
                   (keyed keyDelimiter keyColNames k rs).
  { apply Forall_forall => r /list_elem_of_filter [_ Hr].
    by move/Forall_forall: Hrs => /(_ r Hr). }
  have Hundef : ∀ l : list row,
    Forall (λ r, own (row_object r) "undefined" = None) l →
    getValue true [] <$> l = replicate (length l) JUndefined.
  { elim=> [//|r' l IH] /Forall_cons [Hr' Hl].
    rewrite fmap_cons IH //=. f_equal.
    by rewrite /getValue /= row_get_absent_ordinary. }
  case: (keyed _ _ _ _) Hk => [//|r krs] Hk. by rewrite Hundef.
Qed.

Lemma X8_accumulate_without_value_column_witness :
  ∃ map : gmap string jsval,
    drain "_" true ["Name"] [] sports ∅ = (map, None) ∧
    map !! "Joe" = Some (JArray [JUndefined; JUndefined]).
Proof.
  destruct (X8_accumulate_without_value_column "_" ["Name"] sports "Joe")
    as [map [Hrun Hk]].
  - repeat constructor.
  - apply (bool_decide_unpack _). vm_compute. exact I.
  - exists map. split; [exact Hrun | exact Hk].
Defined.

(** X9. An empty array of key columns is accepted: [build] does not
    throw, every row gets the empty key, and so the map of one or more
    rows has the single key "": the last row's value (overwrite) or the
    values of all rows (accumulate). *)
Theorem X9_empty_key_columns w input valColNames duplicateKeys keyDelimiter
    (kd : string) (vals : list string) r0 rs :
  (build w (Options.mk input (Names []) valColNames duplicateKeys
                       keyDelimiter)).1 = Normal tt ∧
  getKey kd [] r0 = "" ∧
  drain kd duplicateKeys [] vals (r0 :: rs) ∅ =
  ({[ "" := if duplicateKeys
            then JArray (getValue true vals <$> r0 :: rs)
            else getValue false vals (default r0 (last rs)) ]}, None).
Proof.
  have Hkeys : ∀ l : list row, Forall (λ r, inherited (getKey kd [] r) = false) l
    by move=> l; apply Forall_forall.
  split_and!.
  - rewrite build_started //.
  - done.
  - case: (drain_total kd [] vals duplicateKeys (r0 :: rs)
             (fatal_inherited _ _ _ (Hkeys _))) => map Hrun.
    rewrite Hrun. f_equal. apply map_eq => k.
    have Hall : ∀ l : list row, keyed kd [] "" l = l.
    { move=> l. apply filter_all, Forall_forall. by move=> r _. }
    have Hnone : ∀ l : list row, k ≠ "" → keyed kd [] k l = [].
    { move=> l Hk. apply keyed_nil_iff. rewrite list_elem_of_fmap.
      move=> [r [Hr _]]. by apply Hk. }
    move: Hrun. case: duplicateKeys => Hrun.
    + rewrite (drain_dup_map _ _ _ _ _ k (Hkeys _) Hrun).
      destruct (decide (k = "")) as [->|Hk].
      * by rewrite Hall lookup_singleton_eq.
      * by rewrite Hnone // lookup_singleton_ne.
    + rewrite (drain_normal_map_ordinary _ _ _ _ _ k (Hkeys _) Hrun).
      destruct (decide (k = "")) as [->|Hk].
      * rewrite Hall lookup_singleton_eq last_cons. by case: (last rs).
      * by rewrite Hnone // lookup_singleton_ne.
Qed.

(** ** Runs over arbitrary parser events *)

Lemma pipes_0 from : pipes from 0 = [].
Proof. reflexivity. Qed.

Lemma filter_snoc_bool {A} (p : A → bool) (l : list A) (x : A) :
  filter (λ y, p y = true) (l ++ [x]) =
  filter (λ y, p y = true) l ++ (if p x then [x] else []).
Proof.
  rewrite filter_app. f_equal. case E: (p x).
  - by rewrite filter_cons_True.
  - rewrite filter_cons_False //. by rewrite E.
Qed.

Section AnyEvents.
Variable keyDelimiter : string.
Variable duplicateKeys : bool.
Variables keyColNames valColNames : list string.

Let handle := emit keyDelimiter duplicateKeys keyColNames valColNames.
Let go := doIt keyDelimiter duplicateKeys keyColNames valColNames.



Lemma emit_pipes len next evs st :
  (∀ st', ∃ n, n ≤ len ∧
     filter (λ e, isPipe e = true) (State.events (next st')) =
     filter (λ e, isPipe e = true) (State.events st')
       ++ pipes (State.currentStream st') n ∧
     State.currentStream (next st') ≤ State.currentStream st' + len) →
  ∃ n, n ≤ len ∧
    filter (λ e, isPipe e = true) (State.events (handle next evs st)) =
    filter (λ e, isPipe e = true) (State.events st)
      ++ pipes (S (State.currentStream st)) n ∧
    State.currentStream (handle next evs st)
    ≤ S (State.currentStream st) + len.
Proof.
  move=> Hnext. elim: evs st => [|ev evs IH] st.
  - exists 0. rewrite pipes_0 app_nil_r /=. split_and!; [lia|done|lia].
  - case: ev => [r|err|]; rewrite /handle /= -/handle.
    + case: (onData _ _ _ _ r (State.map st)) => [map|e].
      * exact: (IH (State.mk map _ _)).
      * exists 0. rewrite pipes_0 /= filter_snoc_bool /= !app_nil_r.
        split_and!; [lia|done|lia].
    + case: (IH (State.mk (State.map st) (State.currentStream st)
                   (State.events st ++ [ECallback (Some err) None])))
        => n /= [Hn [Hev Hcs]].
      exists n. split_and!; [done| |done].
      by rewrite Hev filter_snoc_bool /= app_nil_r.
    + case: (Hnext (State.mk (State.map st) (S (State.currentStream st))
                      (State.events st))) => n /= [Hn [Hev Hcs]].
      by exists n.
Qed.

Lemma doIt_pipes pending st :
  ∃ n, n ≤ length pending ∧
    filter (λ e, isPipe e = true) (State.events (go pending st)) =
    filter (λ e, isPipe e = true) (State.events st)
      ++ pipes (State.currentStream st) n ∧
    State.currentStream (go pending st)
    ≤ State.currentStream st + length pending.
Proof.
  elim: pending st => [|f rest IH] st; rewrite /go /= -/go -/handle.
  - exists 0. rewrite pipes_0 filter_snoc_bool /= !app_nil_r.
    split_and!; [lia|done|lia].
  - case: (emit_pipes (length rest) (go rest) f
             (State.mk (State.map st) (State.currentStream st)
                (State.events st ++ [EPipe (State.currentStream st)])) IH)
      => n /= [Hn [Hev Hcs]].
    exists (S n). split_and!; [lia| |lia].
    by rewrite Hev filter_snoc_bool /= pipes_S -app_assoc.
Qed.

Lemma emit_callbacks next evs st :
  errorLast evs = true →
  (∀ st', length (filter (λ e, isCallback e = true)
                         (State.events (next st')))
          ≤ length (filter (λ e, isCallback e = true) (State.events st'))
            + 1) →
  length (filter (λ e, isCallback e = true)
                 (State.events (handle next evs st)))
  ≤ length (filter (λ e, isCallback e = true) (State.events st)) + 1.
Proof.
  move=> Hevs Hnext. elim: evs st Hevs => [|ev evs IH] st.
  - move=> _ /=. lia.
  - case: ev => [r|err|]; rewrite /handle /= -/handle.
    + move=> Hevs. case: (onData _ _ _ _ r (State.map st)) => [map|e].
      * exact: (IH (State.mk map _ _)).
      * rewrite /= filter_snoc_bool /= app_nil_r. lia.
    + case: evs {IH} => [_|//] /=.
      rewrite filter_snoc_bool length_app /=. lia.
    + move=> _. exact: Hnext.
Qed.

Lemma doIt_callbacks pending st :
  Forall (λ f, errorLast f = true) pending →
  length (filter (λ e, isCallback e = true) (State.events (go pending st)))
  ≤ length (filter (λ e, isCallback e = true) (State.events st)) + 1.
Proof.
  elim: pending st => [|f rest IH] st; rewrite /go /= -/go -/handle.
  - move=> _. rewrite filter_snoc_bool length_app /=. lia.
  - move=> /Forall_cons [Hf Hrest].
    have := emit_callbacks (go rest) f
              (State.mk (State.map st) (State.currentStream st)
                 (State.events st ++ [EPipe (State.currentStream st)]))
              Hf (λ st', IH st' Hrest).
    by rewrite /= filter_snoc_bool /= app_nil_r.
Qed.

End AnyEvents.


Lemma filter_pipe_creation evs :
  Forall (λ e, isCreation e = true) evs →
  filter (λ e, isPipe e = true) evs = [].
Proof.
  elim: evs => [//|e evs IH] /Forall_cons [He Hevs].
  rewrite filter_cons_False ?IH //. by case: e He.
Qed.



(** X11. Streams are piped strictly in order and never twice: whatever the
    parser emits, the streams piped are those numbered 0, 1, ..., n - 1
    for some n up to the number of streams, in that order, and
    [currentStream] never passes the number of streams. *)
Theorem X11_streams_piped_in_order w options :
  ∃ n, n ≤ length (feeds w options) ∧
    filter (λ e, isPipe e = true) (State.events (build w options).2) =
    pipes 0 n ∧
    State.currentStream (build w options).2 ≤ length (feeds w options).
Proof.
  case Hkeys: (names_falsy (Options.keyColNames options)).
  - exists 0. rewrite build_rejected //=.
    rewrite (filter_pipe_creation _ (created_creation options)).
    split_and!; [lia|done|lia].
  - rewrite build_started //=.
    case: (doIt_pipes (delimiter_of (Options.keyDelimiter options))
             (Options.duplicateKeys options)
             (names_array (Options.keyColNames options))
             (valColNames_of options) (feeds w options)
             (State.mk ∅ 0 (created options))) => n /= [Hn [Hev Hcs]].
    exists n. split_and!; [done| |done].
    by rewrite /doIt_in Hev
         (filter_pipe_creation _ (created_creation options)).
Qed.



(** X13. When no stream emits anything after an ['error'], the callback is
    called at most once, however the streams end. *)
Theorem X13_callback_at_most_once w options :
  Forall (λ f, errorLast f = true) (feeds w options) →
  length (filter (λ e, isCallback e = true)
                 (State.events (build w options).2)) ≤ 1.
Proof.
  move=> Hfs.
  case Hkeys: (names_falsy (Options.keyColNames options)).
  - rewrite build_rejected //=.
    rewrite (filter_callback_creation _ (created_creation options)) /=. lia.
  - rewrite build_started //=.
    have := doIt_callbacks (delimiter_of (Options.keyDelimiter options))
              (Options.duplicateKeys options)
              (names_array (Options.keyColNames options))
              (valColNames_of options) (feeds w options)
              (State.mk ∅ 0 (created options)) Hfs.
    cbn [State.events].
    rewrite (filter_callback_creation _ (created_creation options)).
    move=> Hle. exact: Hle.
Qed.

Lemma X13_callback_at_most_once_witness :
  length (filter (λ e, isCallback e = true)
                 (State.events (build sample_world broken_options).2)) ≤ 1.
Proof.
  apply X13_callback_at_most_once. repeat constructor.
Defined.

(** X14. [instream] has one stream per input, in input order: a string
    with a newline is read as text, any other string names a file, a
    stream is taken as it is.  No input, or the empty string, means
    standard input alone; an empty array means no stream at all, and then
    the callback gets the empty map at once. *)
Theorem X14_one_stream_per_input w options :
  feeds w options =
  (if inputs_falsy (Options.input options) then [stdin_feed w]
   else (λ i, match i with
              | Str s => if hasNewline s then text_feed w s
                         else file_feed w s
              | StreamObj f => f
              end) <$> inputs_array (Options.input options)) ∧
  inputs_falsy (Single (Str "")) = true ∧
  (∀ keyColNames valColNames duplicateKeys keyDelimiter,
     names_falsy keyColNames = false →
     build w (Options.mk (Several []) keyColNames valColNames duplicateKeys
                         keyDelimiter) =
     (Normal tt, State.mk ∅ 0 [ECallback None (Some ∅)])).
Proof.
  split_and!; [|done|].
  - rewrite feeds_unfold. case: (inputs_falsy _); first done.
    apply list_fmap_ext => _ [s|f] _ //=. by case: (hasNewline s).
  - move=> keyColNames valColNames duplicateKeys keyDelimiter Hkeys.
    by rewrite build_started.
Qed.

Lemma X14_one_stream_per_input_witness :
  build sample_world
        (Options.mk (Several []) (Name "Name") Missing false None) =
  (Normal tt, State.mk ∅ 0 [ECallback None (Some ∅)]).
Proof.
  exact (proj2 (proj2 (X14_one_stream_per_input sample_world
                         (merge_options false)))
           (Name "Name") Missing false None eq_refl).
Defined.

(** X15. With a single key column the key is the row's value for that
    column, whatever the delimiter; so the whole build does not depend on
    [keyDelimiter]. *)
Theorem X15_single_key_ignores_delimiter (c : string) :
  (∀ keyDelimiter r, getKey keyDelimiter [c] r = toString (row_get r c)) ∧
  (∀ w input valColNames duplicateKeys d d',
     build w (Options.mk input (Name c) valColNames duplicateKeys d) =
     build w (Options.mk input (Name c) valColNames duplicateKeys d') ∧
     build w (Options.mk input (Names [c]) valColNames duplicateKeys d) =
     build w (Options.mk input (Names [c]) valColNames duplicateKeys d')).
Proof.
  split; first done.
  move=> w input valColNames duplicateKeys d d'. split; reflexivity.
Qed.

(** ** The command line *)

Lemma creation_plain evs :
  Forall (λ e, isCreation e = true) evs →
  Forall (λ e, isPlain e = true) evs.
Proof. move=> Hevs. apply: Forall_impl Hevs _ => e. by case: e. Qed.


Section CommandLine.
Variable stringify : gmap string jsval → string.
Variable out : sink.

Let send := deliver stringify out.

Lemma deliver_plain p l :
  Forall (λ e, isPlain e = true) p →
  send (p ++ l) = (CBuild <$> p) ++ send l.
Proof.
  elim: p => [//|e p IH] /Forall_cons [He Hp].
  have -> : send ((e :: p) ++ l) = CBuild e :: send (p ++ l)
    by case: e He => [| | | | |[?|] ?].
  by rewrite IH.
Qed.

Lemma deliver_plain_only p :
  Forall (λ e, isPlain e = true) p → send p = CBuild <$> p.
Proof.
  move=> Hp. by rewrite -(app_nil_r p) deliver_plain // !app_nil_r.
Qed.

(** The trace so far: nothing decisive yet; the process is dead; or the
    result has just been handed over. *)
Let quiet (evs : list event) : Prop :=
  Forall (λ e, isPlain e = true) evs.

Let dead (evs : list event) : Prop :=
  ∃ p s rest, evs = p ++ s :: rest ∧ quiet p ∧ isStopper s = true.

Let handed (evs : list event) : Prop :=
  ∃ p map, evs = p ++ [ECallback None (Some map)] ∧ quiet p.

Lemma dead_app evs l : dead evs → dead (evs ++ l).
Proof.
  move=> [p [s [rest [-> [Hp Hs]]]]]. exists p, s, (rest ++ l).
  by rewrite -app_assoc.
Qed.

Lemma quiet_snoc_plain evs e :
  isPlain e = true → quiet evs ∨ dead evs →
  quiet (evs ++ [e]) ∨ dead (evs ++ [e]).
Proof.
  move=> He [Hq|Hd]; [left | right; exact: dead_app].
  apply Forall_app. by repeat constructor.
Qed.

Lemma quiet_snoc_stopper evs e :
  isStopper e = true → quiet evs ∨ dead evs → dead (evs ++ [e]).
Proof.
  move=> He [Hq|Hd]; last exact: dead_app.
  by exists evs, e, [].
Qed.

Lemma emit_trace keyDelimiter duplicateKeys keyColNames valColNames
    next evs st :
  (∀ st', quiet (State.events st') ∨ dead (State.events st') →
          quiet (State.events (next st')) ∨ dead (State.events (next st'))
          ∨ handed (State.events (next st'))) →
  quiet (State.events st) ∨ dead (State.events st) →
  let st' := emit keyDelimiter duplicateKeys keyColNames valColNames
                  next evs st in
  quiet (State.events st') ∨ dead (State.events st')
  ∨ handed (State.events st').
Proof.
  move=> Hnext. elim: evs st => [|ev evs IH] st Hst /=.
  - case: Hst; by [left | right; left].
  - case: ev => [r|err|].
    + case: (onData _ _ _ _ r (State.map st)) => [map|e] /=.
      * exact: (IH (State.mk map _ _)).
      * right; left. exact: quiet_snoc_stopper.
    + apply IH => /=. right. exact: quiet_snoc_stopper.
    + exact: Hnext.
Qed.

Lemma doIt_trace keyDelimiter duplicateKeys keyColNames valColNames
    pending st :
  quiet (State.events st) ∨ dead (State.events st) →
  let st' := doIt keyDelimiter duplicateKeys keyColNames valColNames
                  pending st in
  quiet (State.events st') ∨ dead (State.events st')
  ∨ handed (State.events st').
Proof.
  elim: pending st => [|f rest IH] st Hst /=.
  - case: Hst => [Hq|Hd].
    + right; right. by exists (State.events st), (State.map st).
    + right; left. exact: dead_app.
  - apply emit_trace; first exact: IH.
    exact: quiet_snoc_plain.
Qed.

(** What the command line makes of such a trace. *)
Lemma deliver_shape evs :
  quiet evs ∨ dead evs ∨ handed evs →
  ∃ pre fin, send evs = pre ++ fin ∧
    Forall (λ e, isQuiet e = true) pre ∧
    (fin = [] ∨ (∃ e, fin = [CUncaught e]) ∨ (∃ err, fin = [CRethrow err])
     ∨ (∃ map, fin = [CWrite out (stringify map)])).
Proof.
  have Hquiet : ∀ p : list event,
    Forall (λ e, isQuiet e = true) (CBuild <$> p).
  { move=> p. apply Forall_fmap, Forall_forall. by move=> e _. }
  move=> [Hq|[[p [s [rest [-> [Hp Hs]]]]]|[p [map [-> Hp]]]]].
  - exists (CBuild <$> evs), []. rewrite app_nil_r.
    split_and!; [exact: deliver_plain_only|done|by left].
  - rewrite deliver_plain //.
    case: s Hs => [| | | |e|[err|] [map|]] //= _.
    + exists (CBuild <$> p), [CUncaught e].
      split_and!; [done..|right; left; by exists e].
    + exists (CBuild <$> p), [CRethrow err].
      split_and!; [done..|right; right; left; by exists err].
    + exists (CBuild <$> p), [CRethrow err].
      split_and!; [done..|right; right; left; by exists err].
    + exists (CBuild <$> p), [CUncaught
                               (TypeError "Invalid non-string/buffer chunk")].
      split_and!; [done..|right; left; by eexists].
  - rewrite deliver_plain //=.
    exists (CBuild <$> p), [CWrite out (stringify map)].
    split_and!; [done..|right; right; right; by exists map].
Qed.
End CommandLine.

(** X16. The command line ends in one of four ways and does nothing
    afterwards: silently (a stalled stream), on an uncaught exception, on
    the rethrown error of the callback, or by writing the result once to
    the chosen sink.  So the result is written at most once, as the last
    thing done, and never after an error. *)
Theorem X16_command_line_outcomes stringify w inputFile c :
  ∃ pre fin,
    main stringify w inputFile c = pre ++ fin ∧
    Forall (λ e, isQuiet e = true) pre ∧
    (fin = [] ∨ (∃ e, fin = [CUncaught e]) ∨ (∃ err, fin = [CRethrow err])
     ∨ (∃ map, fin = [CWrite (chooseOut (Cmd.output c)).1 (stringify map)])).
Proof.
  rewrite /main.
  have Hopened : Forall (λ e, isQuiet e = true) (chooseOut (Cmd.output c)).2.
  { rewrite /chooseOut. case: (Cmd.output c) => [path|] //=.
    case: (String.eqb path ""); by repeat constructor. }
  case: (chooseOut (Cmd.output c)) Hopened => out opened /= Hopened.
  case Hkeys: (names_falsy (Options.keyColNames (cli_options c))).
  - rewrite build_rejected //.
    rewrite (deliver_plain_only _ _ _
               (creation_plain _ (created_creation (cli_options c)))).
    exists (opened ++ (CBuild <$> created (cli_options c))),
      [CUncaught (Error "options.keyColNames required. [object Object]")].
    split_and!; [by rewrite app_assoc| |right; left; by eexists].
    apply Forall_app. split; first done.
    apply Forall_fmap, Forall_forall. by move=> e _.
  - rewrite build_started //.
    case: (deliver_shape stringify out
             (State.events
                (doIt_in (cli_options c) (feeds w (cli_options c))
                   (State.mk ∅ 0 (created (cli_options c)))))).
    { apply doIt_trace => /=. left.
      exact: creation_plain (created_creation (cli_options c)). }
    move=> pre [fin [-> [Hpre Hfin]]].
    exists (opened ++ pre), fin.
    split_and!; [by rewrite app_assoc|by apply Forall_app|done].
Qed.





(** X19. On the command line the key columns are rejected exactly when -k
    is absent: any value of -k, even the empty one, passes the check.
    Without -k the process dies of the configuration error after the
    output stream (when -o names a file) and the input streams have been
    created; nothing is piped or written. *)
Theorem X19_command_line_without_keys stringify w inputFile c :
  (build w (cli_options c)).1 =
  match Cmd.keyColNames c with
  | Some _ => Normal tt
  | None => Throw (Error "options.keyColNames required. [object Object]")
  end ∧
  (Cmd.keyColNames c = None →
   main stringify w inputFile c =
   (chooseOut (Cmd.output c)).2
     ++ (CBuild <$> created (cli_options c))
     ++ [CUncaught (Error "options.keyColNames required. [object Object]")]).
Proof.
  have Hkeys : names_falsy (Options.keyColNames (cli_options c)) =
               match Cmd.keyColNames c with Some _ => false | None => true end
    by rewrite /cli_options /=; case: (Cmd.keyColNames c).
  split.
  - move: Hkeys. case: (Cmd.keyColNames c) => [k|] Hkeys.
    + by rewrite build_started.
    + by rewrite build_rejected.
  - move=> Hk. rewrite Hk in Hkeys. rewrite /main.
    case: (chooseOut (Cmd.output c)) => out opened /=.
    rewrite build_rejected //.
    by rewrite (deliver_plain_only _ _ _
                  (creation_plain _ (created_creation (cli_options c)))).
Qed.

Lemma X19_command_line_without_keys_witness :
  main sample_stringify sample_world None (sample_cmd None) =
  [CCreateWriteStream "out.json";
   CBuild (ECreateReadStream "sports.csv");
   CBuild (ECreateReadStream "clubs.csv");
   CUncaught (Error "options.keyColNames required. [object Object]")].
Proof.
  exact (proj2 (X19_command_line_without_keys sample_stringify sample_world
                  None (sample_cmd None)) eq_refl).
Defined.

(** ** Batches of rows *)

Lemma drain_dup_sequence_at keyDelimiter keyColNames valColNames rs
    (map : gmap string jsval) k :
  Forall (λ r, inherited (getKey keyDelimiter keyColNames r) = false) rs →
  drain keyDelimiter true keyColNames valColNames rs ∅ = (map, None) →
  sequence_at map k =
  getValue true valColNames <$> keyed keyDelimiter keyColNames k rs.
Proof.
  move=> Hrs Hrun.
  rewrite /sequence_at (drain_dup_map _ _ _ _ _ k Hrs Hrun).
  by case: (keyed _ _ _ _).
Qed.

(** X21. Accumulate policy, two batches with no row keyed by the name of
    a member of [Object.prototype]: the sequence at each key after both
    batches is the sequence the first batch alone gives followed by the
    one the second alone gives. *)
Theorem X21_accumulate_concatenates_batches keyDelimiter keyColNames
    valColNames rs1 rs2 :
  Forall (λ r, inherited (getKey keyDelimiter keyColNames r) = false)
         (rs1 ++ rs2) →
  ∃ map1 map2 map : gmap string jsval,
    drain keyDelimiter true keyColNames valColNames rs1 ∅ = (map1, None) ∧
    drain keyDelimiter true keyColNames valColNames rs2 ∅ = (map2, None) ∧
    drain keyDelimiter true keyColNames valColNames (rs1 ++ rs2) ∅
    = (map, None) ∧
    dom map = dom map1 ∪ dom map2 ∧
    ∀ k, sequence_at map k = sequence_at map1 k ++ sequence_at map2 k.
Proof.
  move=> Hrs. case/Forall_app: (Hrs) => Hrs1 Hrs2.
  case: (drain_dom keyDelimiter true keyColNames valColNames rs1 Hrs1)
    => map1 [H1 Hd1].
  case: (drain_dom keyDelimiter true keyColNames valColNames rs2 Hrs2)
    => map2 [H2 Hd2].
  case: (drain_dom keyDelimiter true keyColNames valColNames (rs1 ++ rs2)
           Hrs) => map [H Hd].
  exists map1, map2, map. do 3 (split; first done). split.
  - by rewrite Hd Hd1 Hd2 fmap_app list_to_set_app_L.
  - move=> k.
    rewrite (drain_dup_sequence_at _ _ _ _ _ k Hrs1 H1)
            (drain_dup_sequence_at _ _ _ _ _ k Hrs2 H2)
            (drain_dup_sequence_at _ _ _ _ _ k Hrs H).
    by rewrite /keyed filter_app fmap_app.
Qed.

Lemma X21_accumulate_concatenates_batches_witness :
  ∃ map1 map2 map : gmap string jsval,
    drain "_" true ["Name"] ["Sport"] sports ∅ = (map1, None) ∧
    drain "_" true ["Name"] ["Sport"] clubs ∅ = (map2, None) ∧
    drain "_" true ["Name"] ["Sport"] (sports ++ clubs) ∅ = (map, None) ∧
    dom map = dom map1 ∪ dom map2 ∧
    ∀ k, sequence_at map k = sequence_at map1 k ++ sequence_at map2 k.
Proof.
  apply (X21_accumulate_concatenates_batches "_" ["Name"] ["Sport"]
           sports clubs).
  apply (bool_decide_unpack _). vm_compute. exact I.
Defined.


(** X23. On the command line, -i with comma-separated names none of which
    contains a newline makes every name a file: one read stream per name,
    created and later piped in the order given. *)
Theorem X23_command_line_inputs_are_files w c (val : string) :
  Cmd.input c = Some val →
  Forall (λ name, hasNewline name = false) (list_of val) →
  created (cli_options c) = ECreateReadStream <$> list_of val ∧
  feeds w (cli_options c) = file_feed w <$> list_of val.
Proof.
  move=> Hi Hnames.
  rewrite created_unfold feeds_unfold /cli_options /= Hi /=.
  elim: (list_of val) Hnames => [//|name names IH] /Forall_cons [Hn Hns].
  case: (IH Hns) => Hc Hf.
  rewrite !fmap_cons /= Hc Hf /resolveStream Hn. done.
Qed.

Lemma X23_command_line_inputs_are_files_witness :
  created (cli_options (sample_cmd (Some "Name"))) =
  [ECreateReadStream "sports.csv"; ECreateReadStream "clubs.csv"].
Proof.
  refine (proj1 (X23_command_line_inputs_are_files sample_world
                   (sample_cmd (Some "Name")) "sports.csv,clubs.csv"
                   eq_refl _)).
  repeat constructor.
Defined.

(** ** Rows with ordinary keys and columns *)

(** X24. Accumulate policy on rows none of which is keyed by the name of
    a member of [Object.prototype]: no handler throws; each row appends
    its projected value to the sequence at its key, which starts empty
    when the key is new; and after any rows the sequence at a key lists
    the values of the rows with that key in arrival order. *)
Theorem X24_accumulate_in_arrival_order keyDelimiter keyColNames valColNames
    rs :
  Forall (λ r, inherited (getKey keyDelimiter keyColNames r) = false) rs →
  ∃ map : gmap string jsval,
    drain keyDelimiter true keyColNames valColNames rs ∅ = (map, None) ∧
    (∀ k, map !! k =
          match keyed keyDelimiter keyColNames k rs with
          | [] => None
          | r :: krs => Some (JArray (getValue true valColNames <$> r :: krs))
          end) ∧
    (∀ r, inherited (getKey keyDelimiter keyColNames r) = false →
          drain keyDelimiter true keyColNames valColNames (rs ++ [r]) ∅ =
          (<[getKey keyDelimiter keyColNames r :=
               JArray (sequence_at map (getKey keyDelimiter keyColNames r)
                         ++ [getValue true valColNames r])]> map, None)).
Proof.
  move=> Hrs.
  case: (drain_dup_lookup keyDelimiter keyColNames valColNames rs "" Hrs)
    => map [Hrun [Hall _]].
  exists map. split_and!; first done.
  - move=> k. exact: drain_dup_map.
  - move=> r Hr.
    rewrite (drain_app _ _ _ _ _ _ _ _ Hrun) /= /onData.
    by rewrite doDupKeys_arrays.
Qed.

Lemma X24_accumulate_in_arrival_order_witness :
  ∃ map : gmap string jsval,
    drain "_" true ["Name"] ["Sport"] (sports ++ clubs) ∅ = (map, None) ∧
    map !! "Joe" =
    Some (JArray [JString "Soccer"; JString "Boxing"; JString "Running"]).
Proof.
  destruct (X24_accumulate_in_arrival_order "_" ["Name"] ["Sport"]
              (sports ++ clubs)) as [map [Hrun [Hk _]]].
  - apply (bool_decide_unpack _). vm_compute. exact I.
  - exists map. split; [exact Hrun|]. rewrite (Hk "Joe"). reflexivity.
Defined.


(** X26. Sources in order.  When every source delivers its rows and
    finishes and no row is keyed by the name of a member of
    [Object.prototype], [build] pipes the streams one at a time in
    [instream] order and calls back once with a map that is the result of
    handling all rows in source order, then row order; the stream behind
    any finished ones is piped in the state where exactly the rows of
    those before it are aggregated.  At each key the map holds the value
    of the last row with that key (overwrite) or the values of all rows
    with that key in that order (accumulate). *)
Theorem X26_sources_in_order w options (rss : list (list row)) :
  names_falsy (Options.keyColNames options) = false →
  feeds w options = finishing <$> rss →
  Forall (λ r, inherited (getKey_in options r) = false) (concat rss) →
  ∃ map : gmap string jsval,
    drain_in options (concat rss) ∅ = (map, None) ∧
    build w options =
    (Normal tt,
     State.mk map (length rss)
       (created options ++ pipes 0 (length rss)
          ++ [ECallback None (Some map)])) ∧
    (∀ pre post,
       rss = pre ++ post →
       ∃ map_pre : gmap string jsval,
         drain_in options (concat pre) ∅ = (map_pre, None) ∧
         doIt_in options (feeds w options) (State.mk ∅ 0 (created options)) =
         doIt_in options (finishing <$> post)
           (State.mk map_pre (length pre)
              (created options ++ pipes 0 (length pre)))) ∧
    (∀ k,
       map !! k =
       if Options.duplicateKeys options then
         match filter (λ r, getKey_in options r = k) (concat rss) with
         | [] => None
         | r :: krs => Some (JArray (getValue_in options <$> r :: krs))
         end
       else
         getValue_in options
           <$> last (filter (λ r, getKey_in options r = k) (concat rss))).
Proof.
  move=> Hkeys Hfs Hrows.
  set kd := delimiter_of (Options.keyDelimiter options).
  set keys := names_array (Options.keyColNames options).
  case: (drain_total kd keys (valColNames_of options)
           (Options.duplicateKeys options) (concat rss)
           (fatal_inherited _ _ _ Hrows)) => map Hrun.
  exists map. split_and!; first done.
  - rewrite build_started // /doIt_in Hfs.
    by rewrite (doIt_all_finished _ _ _ _ _ (State.mk ∅ 0 _) map Hrun).
  - move=> pre post Hsplit.
    have Hpre : Forall (λ r, inherited (getKey_in options r) = false)
                       (concat pre).
    { move: Hrows. rewrite Hsplit concat_app. by move=> /Forall_app []. }
    case: (drain_total kd keys (valColNames_of options)
             (Options.duplicateKeys options) (concat pre)
             (fatal_inherited _ _ _ Hpre)) => map_pre Hpr.
    exists map_pre. split; first done.
    by rewrite /doIt_in Hfs Hsplit fmap_app
         (doIt_finished _ _ _ _ _ _ (State.mk ∅ 0 _) map_pre Hpr).
  - move=> k. move: Hrun.
    rewrite /getValue_in /getKey_in -/kd -/keys.
    case: (Options.duplicateKeys options) => Hrun.
    + exact: (drain_dup_map _ _ _ _ _ k Hrows Hrun).
    + exact: (drain_normal_map_ordinary _ _ _ _ _ k Hrows Hrun).
Qed.

Lemma X26_sources_in_order_witness :
  ∃ map : gmap string jsval,
    build sample_world (merge_options true) =
    (Normal tt,
     State.mk map 2
       [ECreateReadStream "sports.csv"; ECreateReadStream "clubs.csv";
        EPipe 0; EPipe 1; ECallback None (Some map)]) ∧
    map !! "Joe" =
    Some (JArray [JString "Soccer"; JString "Boxing"; JString "Running"]) ∧
    map !! "Ann" = Some (JArray [JString "Rowing"]).
Proof.
  destruct (X26_sources_in_order sample_world (merge_options true)
              [sports; clubs])
    as [map [_ [Hbuild [_ Hk]]]].
  - reflexivity.
  - reflexivity.
  - apply (bool_decide_unpack _). vm_compute. exact I.
  - exists map. split; [exact Hbuild|].
    rewrite (Hk "Joe") (Hk "Ann"). split; reflexivity.
Defined.

(** X27. Missing columns.  For a column the row does not have and whose
    name is no member of [Object.prototype], the row's value is
    [undefined]: in the composite key the column contributes the text
    "undefined"; the projected value is [undefined] when the column is the
    first value column under [duplicateKeys] or the only value column, and
    among several value columns (none named [__proto__]) the sub-mapping
    has the column with value [undefined]. *)
Theorem X27_missing_column_is_undefined (r : row) (c : string) :
  own (row_object r) c = None →
  inherited c = false →
  row_get r c = JUndefined ∧
  (∀ keyDelimiter before after,
     getKey keyDelimiter (before ++ c :: after) r =
     String.concat keyDelimiter
       (((λ x, toString (row_get r x)) <$> before)
          ++ "undefined" :: ((λ x, toString (row_get r x)) <$> after))) ∧
  (∀ cols, getValue true (c :: cols) r = JUndefined) ∧
  getValue false [c] r = JUndefined ∧
  (∀ c1 c2 cols,
     c ∈ c1 :: c2 :: cols →
     "__proto__" ∉ c1 :: c2 :: cols →
     ∃ props, getValue false (c1 :: c2 :: cols) r = JObject props ∧
              own props c = Some JUndefined).
Proof.
  move=> Hown Hname.
  have Hc := row_get_absent_ordinary r c Hown Hname.
  split_and!; first done.
  - move=> keyDelimiter before after.
    by rewrite getKey_concat fmap_app fmap_cons Hc.
  - move=> cols. by rewrite /getValue /= Hc.
  - by rewrite /getValue /= Hc.
  - move=> c1 c2 cols Hin Hproto.
    exists ((λ c, (c, row_get r c))
              <$> fold_left (λ names c, place c names) (c1 :: c2 :: cols) []).
    split.
    + by rewrite -submapping_placed.
    + rewrite own_entries decide_True ?Hc //. by apply elem_of_placed.
Qed.

Lemma X27_missing_column_is_undefined_witness :
  getKey "_" ["Name"; "Sport"] bill = "Bill_undefined" ∧
  getValue true ["Sport"] bill = JUndefined.
Proof.
  destruct (X27_missing_column_is_undefined bill "Sport" eq_refl eq_refl)
    as [_ [Hkey [Hdup _]]].
  split; [exact (Hkey "_" ["Name"] []) | exact (Hdup [])].
Defined.
